(** * Hybrid name matching: the ranking core of [app.py]

    The program ranks the names of a reference list against a query.
    [rapidfuzz.process.extract] gives every name a base score
    ([fuzz.WRatio]); the rows whose lower-cased name is the lower-cased
    query and the repeated names are dropped; a row whose Soundex code equals the
    query's gets ten more points, capped at 100; the rows are sorted by
    that hybrid score and the first [top_n] are returned together with
    the best one.

    Conventions of the embedding.
    - A pandas DataFrame is the list of its rows, in row order.  Row
      labels are not represented, so [reset_index(drop=True)] changes
      nothing.
    - Scores are Python floats in the source.  They are idealised here as
      exact rationals ([Q]): no rounding, no NaN.  Equality of scores is
      [Qeq] (written [==]), the numeric equality of Python's [==].
    - A Python [str] is the string of its UTF-8 bytes.
    - [jellyfish.soundex], [fuzz.WRatio], [str.lower], the lower-casing of
      a column by [Series.str.lower] and the ordering picked by
      [DataFrame.sort_values] are library code; they are the fields of the
      class [Libraries].  The two lower-casings are two functions: Python
      lowers a final capital sigma to the final form, an Arrow-backed
      string column does not. *)

From Stdlib Require Import QArith Qminmax Ascii.
From stdpp Require Import base list strings gmap sorting.

Local Open Scope Q_scope.

(** ** Scores *)

(** [a < b] on scores, as a boolean. *)
Definition Qltb (a b : Q) : bool :=
  (Qnum a * QDen b <? Qnum b * QDen a)%Z.

(** Python's [min(a, b)]: the first argument unless the second is
    strictly smaller. *)
Definition py_min (a b : Q) : Q := if Qltb b a then b else a.

(** ** Rows *)

(** One tuple [(choice, score, index)] of [process.extract], which is also
    one row of the frame with columns ['Matched Name', 'WRatio Score',
    'Index']. *)
Record Match := mkMatch {
  Matched_Name : string;
  WRatio_Score : Q;
  Index : nat
}.

(** A row once the column ['Hybrid Score'] has been added. *)
Record Row := mkRow {
  matched : Match;
  Hybrid_Score : Q
}.

(** ** Stable insertion sort, largest key first

    [insert_desc x l] puts [x] in front of the first row whose key is not
    strictly larger, so a row met earlier stays ahead of the later rows of
    equal key. *)
Section InsertionSort.
Context {A : Type} (key : A → Q).

Fixpoint insert_desc (x : A) (l : list A) : list A :=
  match l with
  | [] => [x]
  | y :: l' => if Qltb (key x) (key y) then y :: insert_desc x l'
               else x :: y :: l'
  end.

Fixpoint isort_desc (l : list A) : list A :=
  match l with
  | [] => []
  | x :: l' => insert_desc x (isort_desc l')
  end.
End InsertionSort.

(** [key]-descending order of a list. *)
Definition descending {A : Type} (key : A → Q) : list A → Prop :=
  StronglySorted (λ a b, key b <= key a).

(** [a] stands in an earlier row than [b]. *)
Definition precedes {A : Type} (l : list A) (a b : A) : Prop :=
  ∃ i j, (i < j)%nat ∧ l !! i = Some a ∧ l !! j = Some b.

(** Rows of equal key stand in [after] in the order they have in
    [before]. *)
Definition ties_keep_order {A : Type} (key : A → Q) (before after : list A)
    : Prop :=
  ∀ a b, precedes after a b → key a == key b → precedes before a b.

(** ** The libraries *)

Class Libraries := {
  (** [jellyfish.soundex] *)
  soundex : string → string;
  (** [rapidfuzz.fuzz.WRatio] *)
  WRatio : string → string → Q;
  (** [str.lower], which line 57 applies to the query *)
  lower : string → string;
  (** [Series.str.lower], which line 57 applies to the column
      ['Matched Name'], on one cell *)
  Series_str_lower : string → string;
  (** [DataFrame.sort_values(by='Hybrid Score', ascending=False)] with the
      default [kind='quicksort']: the rows reordered so that the hybrid
      score decreases.  pandas promises a stable order only for
      [kind='mergesort'] and [kind='stable']. *)
  sort_values : list Row → list Row;
  sort_values_Permutation : ∀ df, sort_values df ≡ₚ df;
  sort_values_descending : ∀ df, descending Hybrid_Score (sort_values df)
}.

(** ** The ranking function *)

Section Ranker.
Context `{Libraries}.

(** [process.extract(query, name_list, scorer=fuzz.WRatio, limit=limit)]:
    every choice scored against the query, best score first, choices of
    equal score by increasing index, at most [limit] of them. *)
Definition extract (query : string) (name_list : list string)
    (limit : nat) : list Match :=
  take limit
    (isort_desc WRatio_Score
       (imap (λ i name, mkMatch name (WRatio query name) i) name_list)).

(** [df[df['Matched Name'].str.lower() != query.lower()]]: the column
    is lower-cased by pandas, the query by Python. *)
Definition exclude_query (query : string) (df : list Match) : list Match :=
  filter (λ row, Series_str_lower (Matched_Name row) ≠ lower query) df.

(** [df.drop_duplicates(subset=['Matched Name'])]: a row is dropped when
    its name was seen in an earlier row ([keep='first']). *)
Fixpoint drop_duplicates (seen : gset string) (df : list Match)
    : list Match :=
  match df with
  | [] => []
  | row :: df' =>
      if decide (Matched_Name row ∈ seen) then drop_duplicates seen df'
      else row :: drop_duplicates ({[Matched_Name row]} ∪ seen) df'
  end.

(** The body of [calculate_bonus_score] once
    [name_soundex_map.get(row['Matched Name'])] has returned [code].  The
    bonus [soundex_match * 0.10] is 10 or 0 (in binary64 too: the product
    of 100 and the double nearest to 0.10 rounds to 10.0). *)
Definition bonus_score (query_soundex : string) (code : option string)
    (row : Match) : Q :=
  let soundex_match : Z :=
    if decide (Some query_soundex = code) then 100%Z else 0%Z in
  let phonetic_bonus := inject_Z soundex_match * (1 # 10) in
  let hybrid_score := WRatio_Score row + phonetic_bonus in
  py_min 100 hybrid_score.

Definition calculate_bonus_score (query_soundex : string)
    (name_soundex_map : gmap string string) (row : Match) : Q :=
  bonus_score query_soundex (name_soundex_map !! Matched_Name row) row.

(** [df.head(n)]: the first [n] rows; all but the last [-n] rows when [n]
    is negative. *)
Definition df_head {A : Type} (n : Z) (df : list A) : list A :=
  if (0 <=? n)%Z then take (Z.to_nat n) df
  else take (length df - Z.to_nat (- n)) df.

(** The frame after exclusion and [drop_duplicates]. *)
Definition survivors (query : string) (name_list : list string)
    : list Match :=
  drop_duplicates ∅
    (exclude_query query (extract query name_list (length name_list))).

(** The frame after [df['Hybrid Score'] = df.apply(calculate_bonus_score,
    axis=1)]: the function on each row, and no rows for a frame without
    rows. *)
Definition scored (query : string) (name_list : list string)
    (name_soundex_map : gmap string string) : list Row :=
  let query_soundex := soundex query in
  map (λ row, mkRow row
                (calculate_bonus_score query_soundex name_soundex_map row))
      (survivors query name_list).

(** The frame after [sort_values(...).head(top_n)]. *)
Definition ranked (query : string) (name_list : list string)
    (name_soundex_map : gmap string string) (top_n : Z) : list Row :=
  df_head top_n (sort_values (scored query name_list name_soundex_map)).

(** [df[['Matched Name', 'Hybrid Score', 'WRatio Score']]] *)
Definition select_columns (row : Row) : string * Q * Q :=
  (Matched_Name (matched row), Hybrid_Score row, WRatio_Score (matched row)).

(** Lines 82-87: [(None, pd.DataFrame())] for an empty frame, else the
    first row's name and hybrid score with the three columns kept. *)
Definition prepare_output (df : list Row)
    : option (string * Q) * list (string * Q * Q) :=
  match df with
  | [] => (None, [])
  | top :: _ =>
      (Some (Matched_Name (matched top), Hybrid_Score top),
       map select_columns df)
  end.

(** [get_hybrid_matches], with the global [name_soundex_map] it reads as
    an argument. *)
Definition get_hybrid_matches (query : string) (name_list : list string)
    (name_soundex_map : gmap string string) (top_n : Z)
    : option (string * Q) * list (string * Q * Q) :=
  prepare_output (ranked query name_list name_soundex_map top_n).

(** Line 35: [{name: jellyfish.soundex(name) for name in names}]. *)
Definition build_soundex_map (names : list string) : gmap string string :=
  foldl (λ m name, <[name := soundex name]> m) ∅ names.
End Ranker.

(** ** The program with its globals

    [names] and [name_soundex_map] are module-level objects; the call on
    line 115 passes the list [names] itself and the function reads the
    dictionary.  A computation takes the store and returns it with its
    result. *)
Record Store := mkStore {
  names : list string;
  name_soundex_map : gmap string string
}.

Definition Prog (A : Type) : Type := Store → A * Store.

Global Instance Prog_ret : MRet Prog := λ A a s, (a, s).
Global Instance Prog_bind : MBind Prog :=
  λ A B f m s, let '(a, s') := m s in f a s'.

(** Reading the list bound to [name_list]. *)
Definition load_names : Prog (list string) := λ s, (names s, s).

(** [name_soundex_map.get(key)]: [None] for a missing key; the dictionary
    gains no entry. *)
Definition dict_get (key : string) : Prog (option string) :=
  λ s, (name_soundex_map s !! key, s).

Section Program.
Context `{Libraries}.

Definition calculate_bonus_score_st (query_soundex : string) (row : Match)
    : Prog Q :=
  code ← dict_get (Matched_Name row);
  mret (bonus_score query_soundex code row).

(** [get_hybrid_matches(query, names, top_n)], statement by statement. *)
Definition get_hybrid_matches_st (query : string) (top_n : Z)
    : Prog (option (string * Q) * list (string * Q * Q)) :=
  name_list ← load_names;
  let matches := extract query name_list (length name_list) in
  let df := exclude_query query matches in
  let df := drop_duplicates ∅ df in
  let query_soundex := soundex query in
  hybrid ← mapM (calculate_bonus_score_st query_soundex) df;
  let df := zip_with mkRow df hybrid in
  let df := df_head top_n (sort_values df) in
  mret (prepare_output df).

(** The session: the index is built from [names], then a query runs. *)
Definition initial_store (names : list string) : Store :=
  mkStore names (build_soundex_map names).
End Program.

(** ** The button handler (lines 109-139)

    What the handler of the button [Find Matches] puts on the page: the
    error for a blank query, the best match with the frame when
    [get_hybrid_matches] found one, the warning otherwise.  [strip] is
    [str.strip].  The texts, and the formatting, column names and row
    labels of the table that [st.dataframe] shows, are not represented:
    [Best_match] carries the values as [get_hybrid_matches] returned
    them. *)
Inductive Screen :=
| Enter_a_name
| Best_match (best : string * Q) (ranked_df : list (string * Q * Q))
| No_similar_names.

Section Handler.
Context `{Libraries} (strip : string → string).

Definition find_matches (query_name : string) (top_n_choice : Z)
    : Prog Screen :=
  if decide (strip query_name = EmptyString) then mret Enter_a_name
  else
    result ← get_hybrid_matches_st query_name top_n_choice;
    match result.1 with
    | Some best => mret (Best_match best result.2)
    | None => mret No_similar_names
    end.
End Handler.

(** ** The properties of the design *)

(** The phonetic-match signal: 1 when the index holds the query's code
    for the name, 0 when it holds another code or no code at all. *)
Definition phoneticMatch (query_code : string)
    (phoneticIndex : gmap string string) (name : string) : Q :=
  if decide (phoneticIndex !! name = Some query_code) then 1 else 0.

(** The ranking the design describes: the hybrid scores of the returned
    frame decrease, and rows of equal hybrid score keep the order they had
    after scoring, exclusion and deduplication. *)
Definition stable_ranking `{Libraries} (query : string)
    (name_list : list string) (phoneticIndex : gmap string string)
    (top_n : Z) : Prop :=
  let frame := (get_hybrid_matches query name_list phoneticIndex top_n).2 in
  descending (λ row : string * Q * Q, row.1.2) frame
  ∧ ties_keep_order (λ row : string * Q * Q, row.1.2)
      (select_columns <$> scored query name_list phoneticIndex) frame.

(** ** Tables to run the program on examples

    Scores, phonetic codes and lower-cased forms are read from tables: a
    pair that is not listed scores 0, a name that is not listed has the
    empty code, a string that is not listed is lower-cased as ASCII. *)

Definition lower_ascii (c : ascii) : ascii :=
  let n := nat_of_ascii c in
  if ((65 <=? n)%nat && (n <=? 90)%nat)%bool then ascii_of_nat (n + 32) else c.

Fixpoint lower_string (s : string) : string :=
  match s with
  | EmptyString => EmptyString
  | String c s' => String (lower_ascii c) (lower_string s')
  end.

Definition table_soundex (codes : list (string * string)) (s : string)
    : string :=
  default EmptyString ((list_to_map codes : gmap string string) !! s).

Definition table_lower (lowered : list (string * string)) (s : string)
    : string :=
  default (lower_string s) ((list_to_map lowered : gmap string string) !! s).

Definition table_WRatio (scores : list (string * string * Q))
    (query name : string) : Q :=
  default 0 ((list_to_map scores : gmap (string * string) Q) !! (query, name)).

(** [str.strip] on ASCII strings: tabs, line breaks, the separators
    28-31 and the space are white. *)
Definition is_space (c : ascii) : bool :=
  let n := nat_of_ascii c in
  ((9 <=? n)%nat && (n <=? 13)%nat || (28 <=? n)%nat && (n <=? 32)%nat)%bool.

Fixpoint lstrip (s : string) : string :=
  match s with
  | EmptyString => EmptyString
  | String c s' => if is_space c then lstrip s' else s
  end.

Fixpoint rstrip (s : string) : string :=
  match s with
  | EmptyString => EmptyString
  | String c s' =>
      match rstrip s' with
      | EmptyString => if is_space c then EmptyString else String c EmptyString
      | t => String c t
      end
  end.

Definition strip_ascii (s : string) : string := rstrip (lstrip s).

(** Sample data: a list with [Geetha] twice and the query in lower case,
    the Soundex codes of the names, and scores against the query
    [Githa]. *)
Definition sample_names : list string :=
  ["Geetha"; "Geetu"; "Smith"; "Geetha"; "githa"]%string.

Definition sample_codes : list (string * string) :=
  [("Githa", "G300"); ("Geetha", "G300"); ("Geetu", "G300");
   ("Smith", "S530"); ("githa", "G300")]%string.

Definition sample_scores : list (string * string * Q) :=
  [("Githa", "Geetha", 800 # 11); ("Githa", "Geetu", 40);
   ("Githa", "Smith", 60); ("Githa", "githa", 80)]%string.

(** Two names with the same score against the query [Mia]; [Maia] has
    the query's Soundex code, [Mila] has not. *)
Definition mia_names : list string := ["Mila"; "Maia"]%string.

Definition mia_codes : list (string * string) :=
  [("Mia", "M000"); ("Maia", "M000"); ("Mila", "M400")]%string.

Definition mia_scores : list (string * string * Q) :=
  [("Mia", "Mila", 600 # 7); ("Mia", "Maia", 600 # 7)]%string.

(** A Greek name that ends in a capital sigma: [str.lower] gives the
    final sigma, the Arrow-backed column does not.  [WRatio] of a string
    with itself is 100. *)
Definition sigma_names : list string := ["ΑΣ"]%string.

Definition sigma_scores : list (string * string * Q) :=
  [("ΑΣ", "ΑΣ", 100)]%string.

Definition sigma_str_lower : list (string * string) :=
  [("ΑΣ", "ας")]%string.

Definition sigma_column_lower : list (string * string) :=
  [("ΑΣ", "ασ")]%string.

(** * Properties *)

(** ** Order on scores *)

Lemma Qltb_lt (a b : Q) : Qltb a b = true ↔ a < b.
Proof. unfold Qltb, Qlt. apply Z.ltb_lt. Qed.

Lemma Qltb_ge (a b : Q) : Qltb a b = false ↔ b <= a.
Proof. unfold Qltb, Qle. rewrite Z.ltb_ge. reflexivity. Qed.

Lemma py_min_Qmin (a b : Q) : py_min a b == Qmin a b.
Proof.
  unfold py_min. destruct (Qltb b a) eqn:E.
  - apply Qltb_lt in E. symmetry. apply Q.min_r. by apply Qlt_le_weak.
  - apply Qltb_ge in E. symmetry. by apply Q.min_l.
Qed.

(** ** The insertion sort is a sort *)

Section InsertionSortFacts.
Context {A : Type} (key : A → Q).

Lemma insert_desc_Permutation (x : A) (l : list A) :
  insert_desc key x l ≡ₚ x :: l.
Proof.
  induction l as [|y l IH]; simpl; [done|].
  destruct (Qltb (key x) (key y)); [|done].
  rewrite IH. apply Permutation_swap.
Qed.

Lemma isort_desc_Permutation (l : list A) : isort_desc key l ≡ₚ l.
Proof.
  induction l as [|x l IH]; simpl; [done|].
  by rewrite insert_desc_Permutation, IH.
Qed.

Lemma insert_desc_descending (x : A) (l : list A) :
  descending key l → descending key (insert_desc key x l).
Proof.
  unfold descending. induction 1 as [|y l Hl IH Hy]; simpl.
  - repeat constructor.
  - destruct (Qltb (key x) (key y)) eqn:E.
    + constructor; [done|].
      rewrite insert_desc_Permutation. constructor; [|done].
      apply Qltb_lt in E. by apply Qlt_le_weak.
    + apply Qltb_ge in E. constructor; [by constructor|].
      constructor; [done|].
      eapply Forall_impl; [exact Hy|]. intros z Hz. simpl in Hz.
      by apply Qle_trans with (key y).
Qed.

Lemma isort_desc_descending (l : list A) : descending key (isort_desc key l).
Proof.
  induction l as [|x l IH]; simpl; [constructor|].
  by apply insert_desc_descending.
Qed.
End InsertionSortFacts.

(** ** Order of appearance and stability *)

Lemma precedes_cons {A : Type} (l : list A) (x a b : A) :
  precedes l a b → precedes (x :: l) a b.
Proof.
  intros (i & j & Hij & Hi & Hj). exists (S i), (S j).
  split; [lia|done].
Qed.

Lemma precedes_head {A : Type} (l : list A) (x b : A) :
  b ∈ l → precedes (x :: l) x b.
Proof.
  intros [j Hj]%list_elem_of_lookup. exists 0%nat, (S j).
  split; [lia|done].
Qed.

Lemma precedes_cons_inv {A : Type} (l : list A) (x a b : A) :
  precedes (x :: l) a b → (a = x ∧ b ∈ l) ∨ precedes l a b.
Proof.
  intros (i & j & Hij & Hi & Hj).
  destruct j as [|j]; [lia|]. simpl in Hj.
  destruct i as [|i]; simpl in Hi.
  - left. split; [congruence|]. by eapply list_elem_of_lookup_2.
  - right. exists i, j. split; [lia|done].
Qed.

Lemma precedes_take {A : Type} (n : nat) (l : list A) (a b : A) :
  precedes (take n l) a b → precedes l a b.
Proof.
  intros (i & j & Hij & Hi & Hj). exists i, j.
  apply lookup_take_Some in Hi as [Hi _].
  apply lookup_take_Some in Hj as [Hj _]. done.
Qed.

Lemma precedes_fmap {A B : Type} (f : A → B) (l : list A) (a' b' : B) :
  precedes (f <$> l) a' b'
  ↔ ∃ a b, a' = f a ∧ b' = f b ∧ precedes l a b.
Proof.
  split.
  - intros (i & j & Hij & Hi & Hj).
    apply list_lookup_fmap_Some in Hi as (a & -> & Hi).
    apply list_lookup_fmap_Some in Hj as (b & -> & Hj).
    exists a, b. split; [done|]. split; [done|]. by exists i, j.
  - intros (a & b & -> & -> & i & j & Hij & Hi & Hj).
    exists i, j. rewrite !list_lookup_fmap, Hi, Hj. done.
Qed.

Lemma precedes_or {A : Type} (l : list A) (a b : A) :
  a ∈ l → b ∈ l → a ≠ b → precedes l a b ∨ precedes l b a.
Proof.
  intros [i Hi]%list_elem_of_lookup [j Hj]%list_elem_of_lookup Hne.
  destruct (Nat.lt_trichotomy i j) as [?|[->|?]].
  - left. by exists i, j.
  - congruence.
  - right. by exists j, i.
Qed.

Lemma descending_precedes {A : Type} (key : A → Q) (l : list A) (a b : A) :
  descending key l → precedes l a b → key b <= key a.
Proof.
  intros Hs (i & j & Hij & Hi & Hj).
  rewrite <- (take_drop j l) in Hs.
  eapply (StronglySorted_app_1_elem_of _ _ _ a b Hs).
  - apply list_elem_of_lookup. exists i. by rewrite lookup_take_lt.
  - apply list_elem_of_lookup. exists 0%nat.
    by rewrite lookup_drop, Nat.add_0_r.
Qed.

Section Stability.
Context {A : Type} (key : A → Q).

(** Where a row stands after an insertion: the new row is ahead of a row
    of the list, or behind a row of strictly larger key, or both rows
    stood in this order before. *)
Lemma precedes_insert_desc (x : A) (l : list A) (a b : A) :
  precedes (insert_desc key x l) a b →
  (a = x ∧ b ∈ l) ∨ (b = x ∧ key x < key a) ∨ precedes l a b.
Proof.
  induction l as [|y l IH]; simpl.
  - intros (i & j & Hij & Hi & Hj).
    destruct j as [|j]; [lia|]. by destruct j.
  - destruct (Qltb (key x) (key y)) eqn:E.
    + apply Qltb_lt in E.
      intros [[-> Hb]|Hp]%precedes_cons_inv.
      * rewrite insert_desc_Permutation in Hb.
        apply elem_of_cons in Hb as [->|Hb].
        -- right. by left.
        -- right. right. by apply precedes_head.
      * destruct (IH Hp) as [[-> Hb]|[[-> Hlt]|Hl]].
        -- left. split; [done|]. by right.
        -- right. by left.
        -- right. right. by apply precedes_cons.
    + intros [[-> Hb]|Hp]%precedes_cons_inv.
      * by left.
      * by right; right.
Qed.

(** The insertion sort is stable. *)
Lemma isort_desc_stable (l : list A) :
  ties_keep_order key l (isort_desc key l).
Proof.
  unfold ties_keep_order. induction l as [|x l IH]; simpl; intros a b Hp Hkey.
  - destruct Hp as (i & j & _ & Hi & _). by destruct i.
  - apply precedes_insert_desc in Hp as [[-> Hb]|[[-> Hlt]|Hp]].
    + apply precedes_head. by rewrite isort_desc_Permutation in Hb.
    + rewrite Hkey in Hlt. by apply Qlt_irrefl in Hlt.
    + by apply precedes_cons, IH.
Qed.
End Stability.

(** ** Libraries to run the program on examples

    The tables above with the stable sort. *)

Definition stable_libraries (codes : list (string * string))
    (scores : list (string * string * Q)) : Libraries := {|
  soundex := table_soundex codes;
  WRatio := table_WRatio scores;
  lower := lower_string;
  Series_str_lower := lower_string;
  sort_values := isort_desc Hybrid_Score;
  sort_values_Permutation := isort_desc_Permutation Hybrid_Score;
  sort_values_descending := isort_desc_descending Hybrid_Score
|}.

Definition sample_libraries : Libraries :=
  stable_libraries sample_codes sample_scores.

(** The index built from the sample names. *)
Definition sample_index : gmap string string :=
  @build_soundex_map sample_libraries sample_names.

(** An index built before [Geetu] joined the list. *)
Definition stale_index : gmap string string :=
  @build_soundex_map sample_libraries ["Geetha"; "Smith"]%string.

Definition mia_libraries : Libraries :=
  stable_libraries mia_codes mia_scores.

Definition mia_index : gmap string string :=
  @build_soundex_map mia_libraries mia_names.

(** The two lower-casings disagree on a final capital sigma. *)
Definition sigma_libraries : Libraries := {|
  soundex := table_soundex [];
  WRatio := table_WRatio sigma_scores;
  lower := table_lower sigma_str_lower;
  Series_str_lower := table_lower sigma_column_lower;
  sort_values := isort_desc Hybrid_Score;
  sort_values_Permutation := isort_desc_Permutation Hybrid_Score;
  sort_values_descending := isort_desc_descending Hybrid_Score
|}.

(** ** The index *)

Section IndexFacts.
Context `{Libraries}.

Lemma foldl_insert_soundex (m : gmap string string) (names : list string)
    (name : string) :
  foldl (λ m name, <[name := soundex name]> m) m names !! name
  = if decide (name ∈ names) then Some (soundex name) else m !! name.
Proof.
  revert m. induction names as [|n names IH]; intros m; cbn [foldl].
  - case_decide as Hin; [by apply elem_of_nil in Hin|done].
  - rewrite IH. destruct (decide (name ∈ names)) as [Hin|Hnin].
    + rewrite decide_True; [done|]. by right.
    + destruct (decide (name = n)) as [->|Hne].
      * rewrite lookup_insert_eq. rewrite decide_True; [done|]. by left.
      * rewrite lookup_insert_ne by done.
        rewrite decide_False; [done|].
        by intros [?|?]%elem_of_cons.
Qed.

(** The index holds the code of every name of the list it was built
    from, and nothing else. *)
Lemma build_soundex_map_lookup (names : list string) (name : string) :
  build_soundex_map names !! name
  = if decide (name ∈ names) then Some (soundex name) else None.
Proof.
  unfold build_soundex_map. rewrite foldl_insert_soundex.
  by rewrite lookup_empty.
Qed.
(** In a session the index is built from the list that is ranked: no
    lookup misses, and the signal compares the two Soundex codes. *)
Lemma session_phoneticMatch (names : list string) (query name : string) :
  name ∈ names →
  phoneticMatch (soundex query) (build_soundex_map names) name
  = if decide (soundex name = soundex query) then 1 else 0.
Proof.
  intros Hin. unfold phoneticMatch.
  rewrite build_soundex_map_lookup. rewrite (decide_True _ _ Hin).
  destruct (decide (soundex name = soundex query)) as [->|Hne].
  - by rewrite decide_True.
  - rewrite decide_False; [done|]. by intros [= ?].
Qed.
End IndexFacts.

(** ** The stages of the pipeline *)

Lemma filter_app_cons_inv {A : Type} (P : A → Prop) `{∀ x, Decision (P x)}
    (l before after : list A) (m : A) :
  filter P l = before ++ m :: after →
  ∃ before' after', l = before' ++ m :: after'
    ∧ filter P before' = before ∧ filter P after' = after.
Proof.
  revert before. induction l as [|x l IH]; intros before.
  - rewrite filter_nil. by destruct before.
  - rewrite filter_cons. case_decide as HP.
    + destruct before as [|y before]; intros [= <- Hl].
      * by exists [], l.
      * destruct (IH _ Hl) as (before' & after' & -> & <- & <-).
        exists (x :: before'), after'.
        by rewrite filter_cons, decide_True.
    + intros Hl. destruct (IH _ Hl) as (before' & after' & -> & <- & <-).
      exists (x :: before'), after'.
      by rewrite filter_cons, decide_False.
Qed.

Section RankerFacts.
Context `{Libraries}.

(** With [limit=len(name_list)] no choice is cut off. *)
Lemma extract_all (query : string) (name_list : list string) :
  extract query name_list (length name_list)
  = isort_desc WRatio_Score
      (imap (λ i name, mkMatch name (WRatio query name) i) name_list).
Proof.
  unfold extract. apply take_ge.
  by rewrite isort_desc_Permutation, length_imap.
Qed.

Lemma elem_of_extract (query : string) (name_list : list string) (m : Match) :
  m ∈ extract query name_list (length name_list)
  ↔ ∃ i name, name_list !! i = Some name
              ∧ m = mkMatch name (WRatio query name) i.
Proof.
  rewrite extract_all, isort_desc_Permutation, elem_of_lookup_imap.
  split; intros (i & name & ? & ?); by exists i, name.
Qed.

Lemma elem_of_exclude_query (query : string) (df : list Match) (m : Match) :
  m ∈ exclude_query query df
  ↔ Series_str_lower (Matched_Name m) ≠ lower query ∧ m ∈ df.
Proof. unfold exclude_query. by rewrite list_elem_of_filter. Qed.

Lemma drop_duplicates_sublist (seen : gset string) (df : list Match) :
  drop_duplicates seen df `sublist_of` df.
Proof.
  revert seen. induction df as [|row df IH]; intros seen; simpl; [done|].
  case_decide.
  - by apply sublist_cons.
  - by apply sublist_skip.
Qed.

Lemma elem_of_drop_duplicates (seen : gset string) (df : list Match)
    (m : Match) :
  m ∈ drop_duplicates seen df → (Matched_Name m ∉ seen) ∧ m ∈ df.
Proof.
  revert seen. induction df as [|row df IH]; intros seen; simpl.
  - by intros ?%elem_of_nil.
  - case_decide as Hseen.
    + intros [??]%IH. split; [done|]. by right.
    + intros [->|[Hm ?]%IH]%elem_of_cons.
      * split; [done|]. by left.
      * split; [|by right]. intros ?. apply Hm, elem_of_union. by right.
Qed.

Lemma drop_duplicates_NoDup (seen : gset string) (df : list Match) :
  NoDup (Matched_Name <$> drop_duplicates seen df).
Proof.
  revert seen. induction df as [|row df IH]; intros seen; simpl.
  - constructor.
  - case_decide; [done|]. rewrite fmap_cons. constructor; [|done].
    intros (m & Hname & [Hm _]%elem_of_drop_duplicates)%list_elem_of_fmap.
    set_solver.
Qed.

(** The row kept for a name is the first row of the frame with that
    name. *)
Lemma drop_duplicates_first (seen : gset string) (df : list Match)
    (m : Match) :
  m ∈ drop_duplicates seen df →
  ∃ before after, df = before ++ m :: after
    ∧ Forall (λ m', Matched_Name m' ≠ Matched_Name m) before.
Proof.
  revert seen. induction df as [|row df IH]; intros seen; simpl.
  - by intros ?%elem_of_nil.
  - case_decide as Hseen.
    + intros Hm. destruct (elem_of_drop_duplicates _ _ _ Hm) as [Hns _].
      destruct (IH _ Hm) as (before & after & -> & Hb).
      exists (row :: before), after. split; [done|].
      constructor; [congruence|done].
    + intros [->|Hm]%elem_of_cons.
      * by exists [], df.
      * destruct (elem_of_drop_duplicates _ _ _ Hm) as [Hns _].
        destruct (IH _ Hm) as (before & after & -> & Hb).
        exists (row :: before), after. split; [done|].
        constructor; [set_solver|done].
Qed.

(** The first row with a name that was not seen before is kept. *)
Lemma drop_duplicates_keeps_first (seen : gset string)
    (before after : list Match) (m : Match) :
  Forall (λ m', Matched_Name m' ≠ Matched_Name m) before →
  Matched_Name m ∉ seen →
  m ∈ drop_duplicates seen (before ++ m :: after).
Proof.
  revert seen.
  induction before as [|row before IH]; intros seen Hb Hns; simpl.
  - rewrite decide_False by done. by left.
  - apply Forall_cons in Hb as [Hrow Hb]. case_decide.
    + by apply IH.
    + right. apply IH; [done|].
      rewrite elem_of_union, elem_of_singleton.
      intros [Heq|Hseen]; [by apply Hrow|done].
Qed.

(** Every name of the frame that was not seen before keeps a row. *)
Lemma drop_duplicates_complete (seen : gset string) (df : list Match)
    (m : Match) :
  m ∈ df → Matched_Name m ∉ seen →
  Matched_Name m ∈ Matched_Name <$> drop_duplicates seen df.
Proof.
  revert seen. induction df as [|row df IH]; intros seen; simpl.
  - by intros ?%elem_of_nil.
  - intros [->|Hm]%elem_of_cons Hns.
    + rewrite decide_False by done. rewrite fmap_cons. by left.
    + case_decide as Hseen; [by apply IH|].
      rewrite fmap_cons.
      destruct (decide (Matched_Name m = Matched_Name row)) as [->|Hne];
        [by left|].
      right. apply IH; [done|].
      by intros [?%elem_of_singleton|?]%elem_of_union.
Qed.

Lemma size_difference_fresh (x : string) (X seen : gset string) :
  x ∉ seen → size (({[x]} ∪ X) ∖ seen) = S (size (X ∖ ({[x]} ∪ seen))).
Proof.
  intros Hseen.
  assert (({[x]} ∪ X) ∖ seen = {[x]} ∪ X ∖ ({[x]} ∪ seen)) as ->.
  { apply set_eq. intros y.
    rewrite !elem_of_union, !elem_of_difference, !elem_of_union,
      !elem_of_singleton.
    destruct (decide (y = x)) as [->|]; tauto. }
  rewrite size_union, size_singleton; [done|].
  intros y. rewrite elem_of_singleton, elem_of_difference, elem_of_union,
    elem_of_singleton. tauto.
Qed.

Lemma difference_seen (x : string) (X seen : gset string) :
  x ∈ seen → ({[x]} ∪ X) ∖ seen = X ∖ seen.
Proof.
  intros Hseen. apply set_eq. intros y.
  rewrite !elem_of_difference, elem_of_union, elem_of_singleton.
  split; [|tauto]. intros [[->|?] ?]; tauto.
Qed.

(** The rows kept are as many as the distinct names not seen before. *)
Lemma length_drop_duplicates (seen : gset string) (df : list Match) :
  length (drop_duplicates seen df)
  = size (list_to_set (Matched_Name <$> df) ∖ seen : gset string).
Proof.
  revert seen. induction df as [|row df IH]; intros seen;
    cbn [drop_duplicates].
  - rewrite fmap_nil, list_to_set_nil.
    assert ((∅ : gset string) ∖ seen = ∅) as ->.
    { apply set_eq. intros y. rewrite elem_of_difference, elem_of_empty.
      tauto. }
    by rewrite size_empty.
  - rewrite fmap_cons, list_to_set_cons. case_decide as Hseen.
    + by rewrite IH, difference_seen.
    + cbn [length]. by rewrite IH, size_difference_fresh.
Qed.

Lemma df_head_prefix {A : Type} (n : Z) (df : list A) :
  df_head n df `prefix_of` df.
Proof. unfold df_head. destruct (0 <=? n)%Z; apply prefix_take. Qed.

Lemma df_head_nonneg {A : Type} (n : Z) (df : list A) :
  (0 ≤ n)%Z → df_head n df = take (Z.to_nat n) df.
Proof. intros Hn. unfold df_head. by rewrite (proj2 (Z.leb_le 0 n) Hn). Qed.
End RankerFacts.

(** ** The frames of [get_hybrid_matches] *)

Section FrameFacts.
Context `{Libraries}.
Implicit Types (query : string) (name_list : list string)
  (name_soundex_map : gmap string string) (top_n : Z).

(** A surviving row carries a name of the list, its score against the
    query and its position, and passed the comparison of line 57. *)
Lemma elem_of_survivors query name_list (m : Match) :
  m ∈ survivors query name_list →
  Series_str_lower (Matched_Name m) ≠ lower query
  ∧ name_list !! Index m = Some (Matched_Name m)
  ∧ WRatio_Score m = WRatio query (Matched_Name m).
Proof.
  intros [_ Hm]%elem_of_drop_duplicates.
  apply elem_of_exclude_query in Hm as [Hne Hm].
  apply elem_of_extract in Hm as (i & name & Hi & ->). by simpl in *.
Qed.

Lemma survivors_NoDup query name_list :
  NoDup (Matched_Name <$> survivors query name_list).
Proof. apply drop_duplicates_NoDup. Qed.

(** A name of the list that passes the comparison of line 57 has a
    surviving row. *)
Lemma survivors_complete query name_list (name : string) :
  name ∈ name_list → Series_str_lower name ≠ lower query →
  name ∈ Matched_Name <$> survivors query name_list.
Proof.
  intros [i Hi]%list_elem_of_lookup Hne.
  apply (drop_duplicates_complete ∅ _ (mkMatch name (WRatio query name) i)).
  - apply elem_of_exclude_query. split; [done|].
    apply elem_of_extract. by exists i, name.
  - apply not_elem_of_empty.
Qed.

Lemma survivors_nil query name_list :
  survivors query name_list = []
  ↔ Forall (λ name, Series_str_lower name = lower query) name_list.
Proof.
  rewrite Forall_forall. split.
  - intros Hnil name Hname.
    destruct (decide (Series_str_lower name = lower query)) as [|Hne]; [done|].
    pose proof (survivors_complete query name_list name Hname Hne) as Hin.
    rewrite Hnil in Hin. by apply elem_of_nil in Hin.
  - intros Hall. destruct (survivors query name_list) as [|m df] eqn:E;
      [done|].
    assert (m ∈ survivors query name_list) as Hm by (rewrite E; by left).
    apply elem_of_survivors in Hm as (Hne & Hm%list_elem_of_lookup_2 & _).
    by destruct Hne; apply Hall.
Qed.

(** The survivors are as many as the distinct names of the list that
    pass the comparison of line 57. *)
Lemma length_survivors query name_list :
  length (survivors query name_list)
  = size (list_to_set
            (filter (λ name, Series_str_lower name ≠ lower query) name_list)
          : gset string).
Proof.
  unfold survivors. rewrite length_drop_duplicates. f_equal.
  apply set_eq. intros name.
  rewrite elem_of_difference, !elem_of_list_to_set, list_elem_of_fmap,
    list_elem_of_filter.
  split.
  - intros [(m & -> & Hm) _].
    apply elem_of_exclude_query in Hm as [Hne Hm].
    apply elem_of_extract in Hm as (i & name & Hi & ->). simpl in *.
    split; [done|]. by eapply list_elem_of_lookup_2.
  - intros [Hne [i Hi]%list_elem_of_lookup].
    split; [|apply not_elem_of_empty].
    exists (mkMatch name (WRatio query name) i). split; [done|].
    apply elem_of_exclude_query. split; [done|].
    apply elem_of_extract. by exists i, name.
Qed.

Lemma elem_of_scored query name_list name_soundex_map (r : Row) :
  r ∈ scored query name_list name_soundex_map
  ↔ matched r ∈ survivors query name_list
    ∧ Hybrid_Score r
      = calculate_bonus_score (soundex query) name_soundex_map (matched r).
Proof.
  unfold scored. rewrite list_elem_of_fmap. split.
  - by intros (m & -> & Hm).
  - intros [Hm Hh]. exists (matched r). split; [|done].
    destruct r as [m h]. simpl in *. by subst.
Qed.

Lemma matched_scored query name_list name_soundex_map :
  matched <$> scored query name_list name_soundex_map
  = survivors query name_list.
Proof.
  unfold scored. rewrite <- list_fmap_compose.
  rewrite <- (list_fmap_id (survivors query name_list)) at 2.
  by apply list_fmap_ext.
Qed.

Lemma length_scored query name_list name_soundex_map :
  length (scored query name_list name_soundex_map)
  = length (survivors query name_list).
Proof. unfold scored. apply length_fmap. Qed.

Lemma ranked_prefix query name_list name_soundex_map top_n :
  ranked query name_list name_soundex_map top_n
  `prefix_of` sort_values (scored query name_list name_soundex_map).
Proof. apply df_head_prefix. Qed.

Lemma elem_of_ranked query name_list name_soundex_map top_n (r : Row) :
  r ∈ ranked query name_list name_soundex_map top_n →
  r ∈ scored query name_list name_soundex_map.
Proof.
  intros Hr. rewrite <- (sort_values_Permutation _).
  destruct (ranked_prefix query name_list name_soundex_map top_n)
    as [rest ->].
  apply elem_of_app. by left.
Qed.

Lemma ranked_descending query name_list name_soundex_map top_n :
  descending Hybrid_Score (ranked query name_list name_soundex_map top_n).
Proof.
  pose proof (sort_values_descending
                (scored query name_list name_soundex_map)) as Hs.
  destruct (ranked_prefix query name_list name_soundex_map top_n)
    as [rest Hrest].
  unfold descending in *. rewrite Hrest in Hs.
  by apply StronglySorted_app_1_l in Hs.
Qed.

Lemma ranked_NoDup query name_list name_soundex_map top_n :
  NoDup ((Matched_Name ∘ matched)
           <$> ranked query name_list name_soundex_map top_n).
Proof.
  pose proof (survivors_NoDup query name_list) as Hs.
  rewrite <- (matched_scored query name_list name_soundex_map) in Hs.
  rewrite <- list_fmap_compose in Hs.
  rewrite <- (sort_values_Permutation _) in Hs.
  destruct (ranked_prefix query name_list name_soundex_map top_n)
    as [rest Hrest].
  rewrite Hrest, fmap_app in Hs. by apply NoDup_app in Hs as [? _].
Qed.

Lemma get_hybrid_matches_frame query name_list name_soundex_map top_n :
  (get_hybrid_matches query name_list name_soundex_map top_n).2
  = select_columns <$> ranked query name_list name_soundex_map top_n.
Proof.
  unfold get_hybrid_matches, prepare_output.
  by destruct (ranked query name_list name_soundex_map top_n).
Qed.

Lemma get_hybrid_matches_best query name_list name_soundex_map top_n :
  (get_hybrid_matches query name_list name_soundex_map top_n).1
  = (λ top, (Matched_Name (matched top), Hybrid_Score top))
      <$> head (ranked query name_list name_soundex_map top_n).
Proof.
  unfold get_hybrid_matches, prepare_output.
  by destruct (ranked query name_list name_soundex_map top_n).
Qed.

(** A row of the returned frame comes from a row of [ranked]. *)
Lemma elem_of_frame query name_list name_soundex_map top_n
    (name : string) (hybrid base : Q) :
  (name, hybrid, base)
    ∈ (get_hybrid_matches query name_list name_soundex_map top_n).2 →
  ∃ r, r ∈ ranked query name_list name_soundex_map top_n
       ∧ Matched_Name (matched r) = name
       ∧ Hybrid_Score r = hybrid
       ∧ WRatio_Score (matched r) = base.
Proof.
  rewrite get_hybrid_matches_frame, list_elem_of_fmap.
  intros (r & Heq & Hr). exists r. unfold select_columns in Heq.
  by simplify_eq.
Qed.
End FrameFacts.

(** ** The phonetic bonus *)

Lemma bonus_score_Qmin (query_soundex : string)
    (name_soundex_map : gmap string string) (row : Match) :
  calculate_bonus_score query_soundex name_soundex_map row
  == Qmin 100 (WRatio_Score row
               + 10 * phoneticMatch query_soundex name_soundex_map
                        (Matched_Name row)).
Proof.
  unfold calculate_bonus_score, bonus_score, phoneticMatch.
  rewrite py_min_Qmin.
  assert (inject_Z 100 * (1 # 10) == 10 * 1) as Hhit by reflexivity.
  assert (inject_Z 0 * (1 # 10) == 10 * 0) as Hmiss by reflexivity.
  destruct (name_soundex_map !! Matched_Name row) as [code|];
    repeat case_decide; simplify_eq; by rewrite ?Hhit, ?Hmiss.
Qed.

Lemma bonus_score_miss (query_soundex : string)
    (name_soundex_map : gmap string string) (row : Match) :
  name_soundex_map !! Matched_Name row ≠ Some query_soundex →
  calculate_bonus_score query_soundex name_soundex_map row
  == Qmin 100 (WRatio_Score row).
Proof.
  intros Hne. rewrite bonus_score_Qmin. unfold phoneticMatch.
  rewrite decide_False by done. by rewrite Qmult_0_r, Qplus_0_r.
Qed.

Lemma bonus_score_hit (query_soundex : string)
    (name_soundex_map : gmap string string) (row : Match) :
  name_soundex_map !! Matched_Name row = Some query_soundex →
  calculate_bonus_score query_soundex name_soundex_map row
  == Qmin 100 (WRatio_Score row + 10).
Proof.
  intros Heq. rewrite bonus_score_Qmin. unfold phoneticMatch.
  rewrite decide_True by done. by rewrite Qmult_1_r.
Qed.

Lemma bonus_score_bounds (query_soundex : string)
    (name_soundex_map : gmap string string) (row : Match) :
  0 <= WRatio_Score row <= 100 →
  0 <= calculate_bonus_score query_soundex name_soundex_map row <= 100
  ∧ WRatio_Score row
    <= calculate_bonus_score query_soundex name_soundex_map row.
Proof.
  intros [Hlo Hhi]. rewrite bonus_score_Qmin.
  assert (0 <= 10 * phoneticMatch query_soundex name_soundex_map
                      (Matched_Name row)) as Hb.
  { unfold phoneticMatch. case_decide; by vm_compute. }
  set (b := 10 * phoneticMatch _ _ _) in *.
  assert (WRatio_Score row <= WRatio_Score row + b) as Hle.
  { rewrite <- (Qplus_0_r (WRatio_Score row)) at 1.
    by apply Qplus_le_r. }
  repeat split.
  - apply Q.min_glb; [by vm_compute|].
    by apply Qle_trans with (WRatio_Score row).
  - apply Q.le_min_l.
  - by apply Q.min_glb.
Qed.

(** ** The program leaves its globals alone *)

Section ProgramFacts.
Context `{Libraries}.

Lemma mapM_calculate_bonus_score_st (query_soundex : string)
    (df : list Match) (s : Store) :
  mapM (calculate_bonus_score_st query_soundex) df s
  = (calculate_bonus_score query_soundex (name_soundex_map s) <$> df, s).
Proof.
  induction df as [|row df IH]; [done|].
  cbn [mapM]. unfold mbind, Prog_bind at 1.
  unfold calculate_bonus_score_st at 1, dict_get.
  unfold mbind, Prog_bind at 1. cbn [mret Prog_ret].
  unfold mbind, Prog_bind at 1.
  change ((fix go (l : list Match) : Prog (list Q) :=
             match l with
             | [] => mret []
             | x :: l0 =>
                 calculate_bonus_score_st query_soundex x
                   ≫= λ y, go l0 ≫= λ k, mret (y :: k)
             end) df)
    with (mapM (calculate_bonus_score_st query_soundex) df).
  by rewrite IH.
Qed.

Lemma zip_with_mkRow (f : Match → Q) (df : list Match) :
  zip_with mkRow df (f <$> df) = (λ row, mkRow row (f row)) <$> df.
Proof. induction df as [|row df IH]; [done|]. csimpl. by rewrite IH. Qed.

(** The program returns what the function of its inputs returns, and the
    store it was given. *)
Lemma get_hybrid_matches_st_run (query : string) (top_n : Z) (s : Store) :
  get_hybrid_matches_st query top_n s
  = (get_hybrid_matches query (names s) (name_soundex_map s) top_n, s).
Proof.
  unfold get_hybrid_matches_st, load_names.
  unfold mbind, Prog_bind at 1.
  unfold mbind, Prog_bind at 1.
  rewrite mapM_calculate_bonus_score_st, zip_with_mkRow.
  reflexivity.
Qed.
End ProgramFacts.

(** ** More on the frames *)

Section SurvivorFacts.
Context `{Libraries}.
Implicit Types (query : string) (name_list : list string)
  (name_soundex_map : gmap string string) (top_n : Z).

Lemma survivors_sublist query name_list :
  survivors query name_list
  `sublist_of` extract query name_list (length name_list).
Proof.
  unfold survivors, exclude_query.
  etrans; [apply drop_duplicates_sublist|apply sublist_filter].
Qed.

(** A surviving row is the first row with its name among the rows that
    [process.extract] returned. *)
Lemma survivors_first query name_list (m : Match) :
  m ∈ survivors query name_list →
  ∃ before after,
    extract query name_list (length name_list) = before ++ m :: after
    ∧ Forall (λ m', Matched_Name m' ≠ Matched_Name m) before.
Proof.
  intros Hm. pose proof (elem_of_survivors _ _ _ Hm) as (Hne & _).
  apply drop_duplicates_first in Hm as (before & after & Hsplit & Hbefore).
  apply filter_app_cons_inv in Hsplit
    as (before' & after' & -> & <- & _).
  exists before', after'. split; [done|].
  apply Forall_forall. intros m' Hm'.
  destruct (decide (Series_str_lower (Matched_Name m') = lower query))
    as [Heq|Hneq].
  - intros Hname. by rewrite Hname in Heq.
  - apply (proj1 (Forall_forall _ _) Hbefore).
    by apply list_elem_of_filter.
Qed.

(** The first row with its name among the rows that [process.extract]
    returned survives when it passes the comparison of line 57. *)
Lemma survivors_keeps_first query name_list (before after : list Match)
    (m : Match) :
  extract query name_list (length name_list) = before ++ m :: after →
  Forall (λ m', Matched_Name m' ≠ Matched_Name m) before →
  Series_str_lower (Matched_Name m) ≠ lower query →
  m ∈ survivors query name_list.
Proof.
  intros Hsplit Hb Hne. unfold survivors, exclude_query.
  rewrite Hsplit, filter_app, filter_cons, decide_True by done.
  apply drop_duplicates_keeps_first; [|apply not_elem_of_empty].
  apply Forall_forall. intros m' [_ Hm']%list_elem_of_filter.
  by apply (proj1 (Forall_forall _ _) Hb).
Qed.

Lemma length_survivors_le query name_list :
  (length (survivors query name_list) ≤ length name_list)%nat.
Proof.
  etrans; [apply sublist_length, survivors_sublist|].
  by rewrite extract_all, isort_desc_Permutation, length_imap.
Qed.

Lemma frame_names query name_list name_soundex_map top_n :
  (get_hybrid_matches query name_list name_soundex_map top_n).2.*1.*1
  = (Matched_Name ∘ matched)
      <$> ranked query name_list name_soundex_map top_n.
Proof.
  rewrite get_hybrid_matches_frame, <- !list_fmap_compose.
  by apply list_fmap_ext.
Qed.

Lemma length_ranked query name_list name_soundex_map top_n :
  (0 ≤ top_n)%Z →
  length (ranked query name_list name_soundex_map top_n)
  = Z.to_nat top_n `min` length (survivors query name_list).
Proof.
  intros Hn. unfold ranked. rewrite df_head_nonneg by done.
  by rewrite length_take, sort_values_Permutation, length_scored.
Qed.

Lemma length_frame query name_list name_soundex_map top_n :
  length (get_hybrid_matches query name_list name_soundex_map top_n).2
  = length (ranked query name_list name_soundex_map top_n).
Proof. by rewrite get_hybrid_matches_frame, length_fmap. Qed.

(** A [top_n] that is not smaller than the number of survivors cuts
    nothing off. *)
Lemma frame_all query name_list name_soundex_map top_n :
  (Z.of_nat (length (survivors query name_list)) ≤ top_n)%Z →
  (get_hybrid_matches query name_list name_soundex_map top_n).2
  ≡ₚ select_columns <$> scored query name_list name_soundex_map.
Proof.
  intros Hn. rewrite get_hybrid_matches_frame. unfold ranked.
  rewrite df_head_nonneg by lia. rewrite take_ge.
  - by rewrite sort_values_Permutation.
  - rewrite sort_values_Permutation, length_scored. lia.
Qed.
End SurvivorFacts.

(** ** Ranking order *)

Section RankingFacts.
Context `{Libraries}.
Implicit Types (query : string) (name_list : list string)
  (name_soundex_map : gmap string string) (top_n : Z).

Lemma frame_descending query name_list name_soundex_map top_n :
  descending (λ row : string * Q * Q, row.1.2)
    (get_hybrid_matches query name_list name_soundex_map top_n).2.
Proof.
  rewrite get_hybrid_matches_frame. unfold descending.
  eapply StronglySorted_fmap; [|apply ranked_descending].
  by intros r1 r2.
Qed.

Lemma frame_prefix query name_list name_soundex_map top_n :
  ∃ rest,
    (get_hybrid_matches query name_list name_soundex_map top_n).2 ++ rest
    ≡ₚ select_columns <$> scored query name_list name_soundex_map.
Proof.
  destruct (ranked_prefix query name_list name_soundex_map top_n)
    as [rest Hrest].
  exists (select_columns <$> rest).
  by rewrite get_hybrid_matches_frame, <- fmap_app, <- Hrest,
    sort_values_Permutation.
Qed.

(** The hybrid score of a row whose base score is below 100 grows with a
    phonetic match. *)
Lemma bonus_score_strict (query_soundex : string)
    (name_soundex_map : gmap string string) (hit miss : Match) :
  WRatio_Score hit == WRatio_Score miss →
  WRatio_Score hit < 100 →
  name_soundex_map !! Matched_Name hit = Some query_soundex →
  name_soundex_map !! Matched_Name miss ≠ Some query_soundex →
  calculate_bonus_score query_soundex name_soundex_map miss
  < calculate_bonus_score query_soundex name_soundex_map hit.
Proof.
  intros Hbase Hlt Hhit Hmiss.
  rewrite (bonus_score_hit _ _ _ Hhit), (bonus_score_miss _ _ _ Hmiss).
  rewrite <- Hbase. rewrite (Q.min_r 100 (WRatio_Score hit))
    by by apply Qlt_le_weak.
  apply Q.min_glb_lt; [done|].
  rewrite <- (Qplus_0_r (WRatio_Score hit)) at 1.
  by apply Qplus_lt_r.
Qed.
End RankingFacts.

(** Line 79 asks [sort_values] for the default kind of sort, of which
    pandas promises no order between rows of equal hybrid score.  With a
    [sort_values] that keeps such rows in the order it finds them (pandas'
    [kind='stable']) they keep, in the returned frame, the order they had
    after scoring. *)
Lemma stable_sort_keeps_ties `{Libraries} (query : string)
    (name_list : list string) (name_soundex_map : gmap string string)
    (top_n : Z) :
  (∀ df, ties_keep_order Hybrid_Score df (sort_values df)) →
  stable_ranking query name_list name_soundex_map top_n.
Proof.
  intros Hstable. split; [apply frame_descending|].
  rewrite get_hybrid_matches_frame. unfold ranked.
  intros a' b' (a & b & -> & -> & Hp)%precedes_fmap Hkey.
  apply precedes_fmap. exists a, b. split; [done|]. split; [done|].
  unfold df_head in Hp.
  destruct (0 <=? top_n)%Z; apply precedes_take in Hp;
  exact (Hstable _ a b Hp Hkey).
Qed.

(** The insertion sort of the examples is such a sort. *)
Example stable_sort_keeps_ties_run :
  stable_ranking (H:=sample_libraries) "Githa" sample_names sample_index 10.
Proof.
  apply stable_sort_keeps_ties. exact (isort_desc_stable Hybrid_Score).
Qed.

(** * The claims *)

Implicit Types (query : string) (name_list : list string)
  (phoneticIndex : gmap string string) (top_n : Z).

(** C1.  Every row of the returned frame has the base score of its name
    against the query, and its hybrid score is
    [min(100, base + 10 * phoneticMatch)], where [phoneticMatch] is 1 when
    the index holds the query's phonetic code for the name and 0
    otherwise; a name missing from the index gets no bonus: its hybrid
    score is [min(100, base)]. *)
Theorem hybrid_score_formula `{Libraries} query name_list phoneticIndex top_n
    (name : string) (hybrid base : Q) :
  (name, hybrid, base)
    ∈ (get_hybrid_matches query name_list phoneticIndex top_n).2 →
  base = WRatio query name
  ∧ hybrid
    == Qmin 100 (base + 10 * phoneticMatch (soundex query) phoneticIndex name)
  ∧ (phoneticIndex !! name = None → hybrid == Qmin 100 base).
Proof.
  intros (r & Hr & <- & <- & <-)%elem_of_frame.
  apply elem_of_ranked, elem_of_scored in Hr as [Hm ->].
  apply elem_of_survivors in Hm as (_ & _ & Hbase).
  split; [done|]. split.
  - apply bonus_score_Qmin.
  - intros Hmiss. apply bonus_score_miss. by rewrite Hmiss.
Qed.

Lemma hybrid_score_formula_witness :
  (800 # 11) = @WRatio sample_libraries "Githa" "Geetha"
  ∧ (9100 # 110)
    == Qmin 100 ((800 # 11)
                 + 10 * phoneticMatch (@soundex sample_libraries "Githa")
                          sample_index "Geetha")
  ∧ (sample_index !! "Geetha"%string = None →
     (9100 # 110) == Qmin 100 (800 # 11)).
Proof.
  apply (hybrid_score_formula (H:=sample_libraries)
           "Githa" sample_names sample_index 10 "Geetha").
  vm_compute. left.
Defined.

(** C3.  When the scorer gives the names of the list scores in [0,100],
    every row of the returned frame has a hybrid score in [0,100] that is
    at least its base score. *)
Theorem hybrid_score_bounds `{Libraries} query name_list phoneticIndex top_n :
  Forall (λ name, 0 <= WRatio query name <= 100) name_list →
  Forall (λ '(name, hybrid, base), 0 <= hybrid <= 100 ∧ base <= hybrid)
    (get_hybrid_matches query name_list phoneticIndex top_n).2.
Proof.
  intros Hscorer. apply Forall_forall. intros [[name hybrid] base] Hrow.
  apply elem_of_frame in Hrow as (r & Hr & <- & <- & <-).
  apply elem_of_ranked, elem_of_scored in Hr as [Hm ->].
  apply elem_of_survivors in Hm as (_ & Hname%list_elem_of_lookup_2 & Hbase).
  apply bonus_score_bounds. rewrite Hbase.
  by apply (proj1 (Forall_forall _ _) Hscorer).
Qed.

Lemma hybrid_score_bounds_witness :
  Forall (λ '(name, hybrid, base), 0 <= hybrid <= 100 ∧ base <= hybrid)
    (@get_hybrid_matches sample_libraries "Githa" sample_names
       sample_index 10).2.
Proof.
  apply (hybrid_score_bounds (H:=sample_libraries)).
  repeat constructor; by vm_compute.
Defined.

(** C4.  The comparison of line 57 does not exclude every entry that
    equals the query ignoring case, not even the query itself.  It
    lower-cases the column with [Series.str.lower] and the query with
    [str.lower]; a query that the two lower-case differently is kept: when
    it is in the list and [top_n] is not smaller than the length of the
    list, it is the name of a returned row. *)
Theorem query_not_excluded `{Libraries} query name_list phoneticIndex top_n :
  query ∈ name_list →
  Series_str_lower query ≠ lower query →
  (Z.of_nat (length name_list) ≤ top_n)%Z →
  query ∈ (get_hybrid_matches query name_list phoneticIndex top_n).2.*1.*1.
Proof.
  intros Hin Hne Hn.
  pose proof (length_survivors_le query name_list) as Hle.
  pose proof (survivors_complete query name_list query Hin Hne) as Hs.
  rewrite <- (matched_scored query name_list phoneticIndex) in Hs.
  rewrite <- list_fmap_compose in Hs.
  rewrite (frame_all query name_list phoneticIndex top_n) by lia.
  rewrite <- !list_fmap_compose.
  by erewrite list_fmap_ext; [exact Hs|].
Qed.

(** The query [ΑΣ] against a list that holds [ΑΣ]: the column is
    lower-cased to [ασ], the query to [ας] (a final sigma), and the row of
    the query stays. *)
Lemma query_not_excluded_witness :
  "ΑΣ"%string
    ∈ (@get_hybrid_matches sigma_libraries "ΑΣ" sigma_names ∅ 10).2.*1.*1.
Proof.
  apply (query_not_excluded (H:=sigma_libraries) "ΑΣ" sigma_names ∅ 10).
  - left.
  - by vm_compute.
  - by vm_compute.
Defined.

(** C5.  No name stands in two rows of the returned frame.  The rows
    that go on to scoring and ranking are rows of the output of
    [process.extract], in the order they have there: they are the rows
    that pass the comparison of line 57 and are the first of that output
    with their name, so every name of the list that passes has one.  A
    returned row shows the name and the base score of such a row, and a
    [top_n] that is not smaller than their number returns every one of
    them. *)
Theorem duplicates_collapsed `{Libraries} query name_list phoneticIndex
    top_n :
  let scoring := extract query name_list (length name_list) in
  let frame := (get_hybrid_matches query name_list phoneticIndex top_n).2 in
  NoDup frame.*1.*1
  ∧ survivors query name_list `sublist_of` scoring
  ∧ matched <$> scored query name_list phoneticIndex
    = survivors query name_list
  ∧ Forall (λ '(name, hybrid, base),
      ∃ before m after,
        scoring = before ++ m :: after
        ∧ Forall (λ m', Matched_Name m' ≠ name) before
        ∧ Matched_Name m = name
        ∧ WRatio_Score m = base
        ∧ m ∈ survivors query name_list)
      frame
  ∧ (∀ m, m ∈ survivors query name_list
          ↔ Series_str_lower (Matched_Name m) ≠ lower query
            ∧ ∃ before after,
                scoring = before ++ m :: after
                ∧ Forall (λ m', Matched_Name m' ≠ Matched_Name m) before)
  ∧ (∀ name, name ∈ name_list → Series_str_lower name ≠ lower query →
             name ∈ Matched_Name <$> survivors query name_list)
  ∧ ((Z.of_nat (length (survivors query name_list)) ≤ top_n)%Z →
     ∀ m, m ∈ survivors query name_list →
          (Matched_Name m,
           calculate_bonus_score (soundex query) phoneticIndex m,
           WRatio_Score m) ∈ frame).
Proof.
  intros scoring frame. split; [|split; [|split; [|split; [|split; [|split]]]]].
  - unfold frame. rewrite frame_names. apply ranked_NoDup.
  - apply survivors_sublist.
  - apply matched_scored.
  - apply Forall_forall. intros [[name hybrid] base] Hrow.
    apply elem_of_frame in Hrow as (r & Hr & <- & <- & <-).
    apply elem_of_ranked, elem_of_scored in Hr as [Hm _].
    destruct (survivors_first _ _ _ Hm) as (before & after & Hsplit & Hb).
    by exists before, (matched r), after.
  - intros m. split.
    + intros Hm. split; [by apply elem_of_survivors in Hm as [? _]|].
      by apply survivors_first.
    + intros (Hne & before & after & Hsplit & Hb).
      by eapply survivors_keeps_first.
  - apply survivors_complete.
  - intros Hn m Hm. unfold frame.
    rewrite (frame_all query name_list phoneticIndex top_n Hn).
    apply list_elem_of_fmap.
    exists (mkRow m (calculate_bonus_score (soundex query) phoneticIndex m)).
    split; [done|]. by apply elem_of_scored.
Qed.

(** [Geetha] stands twice in the list and [githa] is the query in
    another case: the rows that go on are the first [Geetha], [Smith] and
    [Geetu], and [top_n = 10] returns the three. *)
Example duplicates_collapsed_run :
  @extract sample_libraries "Githa" sample_names 5
  = [mkMatch "githa" 80 4; mkMatch "Geetha" (800 # 11) 0;
     mkMatch "Geetha" (800 # 11) 3; mkMatch "Smith" 60 2;
     mkMatch "Geetu" 40 1]
  ∧ @survivors sample_libraries "Githa" sample_names
    = [mkMatch "Geetha" (800 # 11) 0; mkMatch "Smith" 60 2;
       mkMatch "Geetu" 40 1]
  ∧ (@get_hybrid_matches sample_libraries "Githa" sample_names
       sample_index 10).2
    = [("Geetha"%string, 9100 # 110, 800 # 11);
       ("Smith"%string, 600 # 10, 60);
       ("Geetu"%string, 500 # 10, 40)].
Proof. by vm_compute. Qed.

(** Lines 82-87.  When no row survives exclusion and [drop_duplicates]
    (so for an empty list, and for a list whose names all fail the
    comparison of line 57) the result is [(None, [])].  When a row survives
    and [top_n] is at least 1, the best match is the name and the hybrid
    score of the first row of the returned frame.  For every [top_n] the
    best match is that of the first row of the frame, and [None] when the
    frame is empty. *)
Theorem best_match_or_none `{Libraries} query name_list phoneticIndex top_n :
  let result := get_hybrid_matches query name_list phoneticIndex top_n in
  (survivors query name_list = [] → result = (None, []))
  ∧ (name_list = [] → result = (None, []))
  ∧ (Forall (λ name, Series_str_lower name = lower query) name_list →
     result = (None, []))
  ∧ (survivors query name_list ≠ [] → (1 ≤ top_n)%Z →
     ∃ name hybrid base rest,
       result = (Some (name, hybrid), (name, hybrid, base) :: rest))
  ∧ result.1 = (λ row, row.1) <$> head result.2.
Proof.
  intros result.
  assert (survivors query name_list = [] → result = (None, [])) as Hnone.
  { intros Hnil. unfold result, get_hybrid_matches.
    assert (ranked query name_list phoneticIndex top_n = []) as ->; [|done].
    apply length_zero_iff_nil, Nat.le_0_r.
    destruct (ranked_prefix query name_list phoneticIndex top_n)
      as [rest Hrest].
    apply (f_equal length) in Hrest.
    rewrite sort_values_Permutation, length_scored, Hnil, length_app
      in Hrest.
    simpl in Hrest. lia. }
  split; [done|]. split; [|split; [|split]].
  - intros ->. apply Hnone, survivors_nil. constructor.
  - intros Hall. by apply Hnone, survivors_nil.
  - intros Hsome Hn. unfold result, get_hybrid_matches.
    pose proof (length_ranked query name_list phoneticIndex top_n) as Hlen.
    destruct (ranked query name_list phoneticIndex top_n) as [|top df].
    + destruct (survivors query name_list); [done|].
      simpl in Hlen. lia.
    + by exists (Matched_Name (matched top)), (Hybrid_Score top),
        (WRatio_Score (matched top)), (select_columns <$> df).
  - unfold result, get_hybrid_matches.
    by destruct (ranked query name_list phoneticIndex top_n).
Qed.

(** A list that holds the query and nothing else, when the two
    lower-casings of line 57 disagree on the query. *)
Lemma only_the_query_ranked `{Libraries} query phoneticIndex top_n :
  Series_str_lower query ≠ lower query →
  (1 ≤ top_n)%Z →
  ranked query [query] phoneticIndex top_n
  = [mkRow (mkMatch query (WRatio query query) 0)
       (calculate_bonus_score (soundex query) phoneticIndex
          (mkMatch query (WRatio query query) 0))].
Proof.
  intros Hne Hn. unfold ranked, scored, survivors, extract, exclude_query.
  cbn [length imap isort_desc insert_desc take].
  rewrite filter_cons, decide_True, filter_nil by done.
  cbn [drop_duplicates Matched_Name].
  rewrite decide_False by apply not_elem_of_empty.
  cbn [map].
  rewrite (proj1 (Permutation_singleton_r _ _) (sort_values_Permutation _)).
  rewrite df_head_nonneg by lia.
  destruct (Z.to_nat top_n) eqn:E; [lia|]. cbn [take]. by rewrite take_nil.
Qed.

(** C6.  The result is not [(None, [])] for every list whose entries all
    equal the query ignoring case.  For a list that holds the query and
    nothing else, a query that [Series.str.lower] and [str.lower]
    lower-case differently and that the scorer gives 100 against itself is
    returned as its own best match, with the hybrid score 100. *)
Theorem only_the_query_kept `{Libraries} query phoneticIndex top_n :
  Series_str_lower query ≠ lower query →
  WRatio query query = 100 →
  (1 ≤ top_n)%Z →
  get_hybrid_matches query [query] phoneticIndex top_n
  = (Some (query, 100), [(query, 100, 100)]).
Proof.
  intros Hne Hself Hn. unfold get_hybrid_matches.
  rewrite only_the_query_ranked by done.
  unfold prepare_output, select_columns, calculate_bonus_score, bonus_score.
  cbn [map matched Matched_Name Hybrid_Score WRatio_Score].
  rewrite Hself. by case_decide.
Qed.

Lemma only_the_query_kept_witness :
  @get_hybrid_matches sigma_libraries "ΑΣ" sigma_names ∅ 10
  = (Some ("ΑΣ"%string, 100), [("ΑΣ"%string, 100, 100)]).
Proof.
  apply (only_the_query_kept (H:=sigma_libraries) "ΑΣ" ∅ 10).
  - by vm_compute.
  - reflexivity.
  - lia.
Defined.

(** C7.  For [top_n] at least 1 the returned frame has at most [top_n]
    rows and at most as many rows as there are survivors, which are as
    many as the distinct names of the list that pass the comparison of
    line 57.  When [top_n] is not smaller than that number the frame holds
    every survivor once, and nothing else. *)
Theorem top_n_bound `{Libraries} query name_list phoneticIndex top_n :
  (1 ≤ top_n)%Z →
  let frame := (get_hybrid_matches query name_list phoneticIndex top_n).2 in
  let distinct : gset string :=
    list_to_set
      (filter (λ name, Series_str_lower name ≠ lower query) name_list) in
  (Z.of_nat (length frame) ≤ top_n)%Z
  ∧ (length frame ≤ size distinct)%nat
  ∧ length (survivors query name_list) = size distinct
  ∧ ((Z.of_nat (size distinct) ≤ top_n)%Z →
     length frame = size distinct
     ∧ frame ≡ₚ select_columns <$> scored query name_list phoneticIndex).
Proof.
  intros Hn frame distinct.
  assert (length (survivors query name_list) = size distinct) as Hsize
    by apply length_survivors.
  assert (length frame
          = Z.to_nat top_n `min` length (survivors query name_list)) as Hlen.
  { unfold frame. rewrite length_frame. apply length_ranked. lia. }
  rewrite <- Hsize. split; [lia|]. split; [lia|]. split; [done|].
  intros Hall. split; [lia|].
  unfold frame. rewrite get_hybrid_matches_frame. unfold ranked.
  rewrite df_head_nonneg by lia. rewrite take_ge.
  - by rewrite sort_values_Permutation.
  - rewrite sort_values_Permutation, length_scored. lia.
Qed.

Lemma top_n_bound_witness :
  let frame :=
    (@get_hybrid_matches sample_libraries "Githa" sample_names
       sample_index 2).2 in
  let distinct : gset string :=
    list_to_set
      (filter (λ name, @Series_str_lower sample_libraries name
                       ≠ @lower sample_libraries "Githa")
         sample_names) in
  (Z.of_nat (length frame) ≤ 2)%Z
  ∧ (length frame ≤ size distinct)%nat
  ∧ length (@survivors sample_libraries "Githa" sample_names) = size distinct
  ∧ ((Z.of_nat (size distinct) ≤ 2)%Z →
     length frame = size distinct
     ∧ frame ≡ₚ select_columns
                  <$> @scored sample_libraries "Githa" sample_names
                        sample_index).
Proof.
  apply (top_n_bound (H:=sample_libraries) "Githa" sample_names
           sample_index 2).
  lia.
Defined.

(** C8.  Let the scorer give 100 to no name of the list but the query
    itself, as [fuzz.WRatio] does: its ratio is 100 for equal strings
    only, and what else it tries is scaled by 0.95 or less.  Then of two
    returned rows with equal base scores, the one whose code in the index
    is the query's has the strictly larger hybrid score and stands in an
    earlier row than the one whose code is another or missing. *)
Theorem phonetic_match_ranks_higher `{Libraries} query name_list
    phoneticIndex top_n (name1 name2 : string)
    (hybrid1 base1 hybrid2 base2 : Q) :
  Forall (λ name, name ≠ query → WRatio query name < 100) name_list →
  (name1, hybrid1, base1)
    ∈ (get_hybrid_matches query name_list phoneticIndex top_n).2 →
  (name2, hybrid2, base2)
    ∈ (get_hybrid_matches query name_list phoneticIndex top_n).2 →
  base1 == base2 →
  phoneticIndex !! name1 = Some (soundex query) →
  phoneticIndex !! name2 ≠ Some (soundex query) →
  hybrid2 < hybrid1
  ∧ precedes (get_hybrid_matches query name_list phoneticIndex top_n).2
      (name1, hybrid1, base1) (name2, hybrid2, base2).
Proof.
  intros Hscorer Hin1 Hin2 Hbase Hhit Hmiss.
  assert (hybrid2 < hybrid1) as Hstrict.
  { apply elem_of_frame in Hin1 as (r1 & Hr1 & <- & <- & <-).
    apply elem_of_frame in Hin2 as (r2 & Hr2 & <- & <- & <-).
    apply elem_of_ranked, elem_of_scored in Hr1 as [Hm1 ->].
    apply elem_of_ranked, elem_of_scored in Hr2 as [Hm2 ->].
    apply elem_of_survivors in Hm1 as (_ & Hname1%list_elem_of_lookup_2 & Hb1).
    apply elem_of_survivors in Hm2 as (_ & Hname2%list_elem_of_lookup_2 & Hb2).
    apply bonus_score_strict; [done| |done|done].
    destruct (decide (Matched_Name (matched r1) = query)) as [Hq|Hq].
    - rewrite Hbase, Hb2.
      apply (proj1 (Forall_forall _ _) Hscorer); [done|].
      intros Hq2. apply Hmiss. rewrite Hq in Hhit. by rewrite Hq2.
    - rewrite Hb1. by apply (proj1 (Forall_forall _ _) Hscorer). }
  split; [done|].
  destruct (precedes_or _ _ _ Hin1 Hin2) as [?|Hrev]; [|done|].
  - intros [= _ Heq _]. rewrite Heq in Hstrict.
    by apply Qlt_irrefl in Hstrict.
  - pose proof (descending_precedes _ _ _ _
                  (frame_descending query name_list phoneticIndex top_n)
                  Hrev) as Hle.
    simpl in Hle. by apply Qle_not_lt in Hle.
Qed.

(** [Mila] and [Maia] score 600/7 against [Mia]; [Maia] has the code
    [M000] of the query, [Mila] has [M400], and [Maia] moves ahead. *)
Lemma phonetic_match_ranks_higher_witness :
  (6000 # 70) < (6700 # 70)
  ∧ precedes
      (@get_hybrid_matches mia_libraries "Mia" mia_names mia_index 10).2
      ("Maia"%string, 6700 # 70, 600 # 7)
      ("Mila"%string, 6000 # 70, 600 # 7).
Proof.
  apply (phonetic_match_ranks_higher (H:=mia_libraries)
           "Mia" mia_names mia_index 10).
  - repeat constructor; by vm_compute.
  - vm_compute. left.
  - vm_compute. right. left.
  - reflexivity.
  - by vm_compute.
  - by vm_compute.
Defined.

(** C10.  A run of [get_hybrid_matches] hands back the store it was
    given: the list [names] and the dictionary [name_soundex_map] are what
    they were before the call. *)
Theorem globals_unchanged `{Libraries} query top_n (s : Store) :
  let s' := (get_hybrid_matches_st query top_n s).2 in
  s' = s ∧ names s' = names s ∧ name_soundex_map s' = name_soundex_map s.
Proof. by rewrite get_hybrid_matches_st_run. Qed.

(** * Runs on the sample data *)

(** [Geetha] twice in the list gives one row; [githa] is the query in
    another case and gives none. *)
Example sample_run :
  @get_hybrid_matches sample_libraries "Githa" sample_names sample_index 10
  = (Some ("Geetha"%string, 9100 # 110),
     [("Geetha"%string, 9100 # 110, 800 # 11);
      ("Smith"%string, 600 # 10, 60);
      ("Geetu"%string, 500 # 10, 40)]).
Proof. by vm_compute. Qed.

(** [Geetu] is not in the stale index and gets no bonus. *)
Example stale_index_run :
  @get_hybrid_matches sample_libraries "Githa" sample_names stale_index 10
  = (Some ("Geetha"%string, 9100 # 110),
     [("Geetha"%string, 9100 # 110, 800 # 11);
      ("Smith"%string, 600 # 10, 60);
      ("Geetu"%string, 400 # 10, 40)]).
Proof. by vm_compute. Qed.

Example only_the_query_run :
  @get_hybrid_matches sample_libraries "Githa" ["githa"; "GITHA"]%string
    sample_index 10
  = (None, []).
Proof. by vm_compute. Qed.

Example program_run :
  @get_hybrid_matches_st sample_libraries "Githa" 2
    (@initial_store sample_libraries sample_names)
  = ((Some ("Geetha"%string, 9100 # 110),
      [("Geetha"%string, 9100 # 110, 800 # 11);
       ("Smith"%string, 600 # 10, 60)]),
     @initial_store sample_libraries sample_names).
Proof. by vm_compute. Qed.

(** Outside the contract [top_n >= 1]: [head(0)] is empty although rows
    survive, and [head(-1)] drops the last row. *)
Example zero_top_n_run :
  @get_hybrid_matches sample_libraries "Githa" sample_names sample_index 0
  = (None, []).
Proof. by vm_compute. Qed.

Example negative_top_n_run :
  @get_hybrid_matches sample_libraries "Githa" sample_names sample_index (-1)
  = (Some ("Geetha"%string, 9100 # 110),
     [("Geetha"%string, 9100 # 110, 800 # 11);
      ("Smith"%string, 600 # 10, 60)]).
Proof. by vm_compute. Qed.

(** * Further properties of the program *)

(** ** Helpers *)

Lemma descending_sublist {A : Type} (key : A → Q) (l1 l2 : list A) :
  l1 `sublist_of` l2 → descending key l2 → descending key l1.
Proof.
  unfold descending. induction 1 as [|x l1 l2 Hsub IH|x l1 l2 Hsub IH];
    intros Hs.
  - constructor.
  - apply StronglySorted_inv in Hs as [Hs Hx]. constructor; [by apply IH|].
    apply Forall_forall. intros y Hy.
    apply (proj1 (Forall_forall _ _) Hx). by eapply elem_of_sublist.
  - apply StronglySorted_inv in Hs as [Hs _]. by apply IH.
Qed.

Lemma fmap_imap_mkMatch (score : string → Q) (l : list string) (k : nat) :
  Matched_Name <$> imap (λ i name, mkMatch name (score name) (k + i)) l = l.
Proof.
  revert k. induction l as [|x l IH]; intros k; [done|].
  cbn [imap]. rewrite fmap_cons. f_equal.
  rewrite <- (IH (S k)) at 2. f_equal. apply imap_ext.
  intros i y _. simpl. f_equal. lia.
Qed.

Section BonusFacts.
Context `{Libraries}.

Lemma phoneticMatch_range (query_code : string)
    (phoneticIndex : gmap string string) (name : string) :
  0 <= 10 * phoneticMatch query_code phoneticIndex name <= 10.
Proof. unfold phoneticMatch. case_decide; by vm_compute. Qed.

Lemma bonus_score_le_plus (query_soundex : string)
    (name_soundex_map : gmap string string) (row : Match) :
  calculate_bonus_score query_soundex name_soundex_map row
  <= Qmin 100 (WRatio_Score row + 10).
Proof.
  rewrite bonus_score_Qmin. apply Q.min_le_compat_l, Qplus_le_r.
  apply phoneticMatch_range.
Qed.

Lemma bonus_score_ge_min (query_soundex : string)
    (name_soundex_map : gmap string string) (row : Match) :
  Qmin 100 (WRatio_Score row)
  <= calculate_bonus_score query_soundex name_soundex_map row.
Proof.
  rewrite bonus_score_Qmin. apply Q.min_le_compat_l.
  rewrite <- (Qplus_0_r (WRatio_Score row)) at 1.
  apply Qplus_le_r, phoneticMatch_range.
Qed.
End BonusFacts.

(** ** The index (line 35) *)

(** X1.  The index maps every name of the list to its Soundex code and
    holds no other key: its keys are the names of the list, as many as
    the list is long when no name is repeated. *)
Theorem name_soundex_map_spec `{Libraries} (names : list string)
    (name : string) :
  build_soundex_map names !! name
  = (if decide (name ∈ names) then Some (soundex name) else None)
  ∧ dom (build_soundex_map names) = list_to_set names
  ∧ (NoDup names → size (build_soundex_map names) = length names).
Proof.
  assert (dom (build_soundex_map names) = list_to_set names) as Hdom.
  { apply set_eq. intros x.
    rewrite elem_of_dom, build_soundex_map_lookup, elem_of_list_to_set.
    destruct (decide (x ∈ names)) as [Hin|Hin].
    - split; [done|]. intros _. by eexists.
    - split; [|done]. intros [y Hy]. discriminate. }
  split; [apply build_soundex_map_lookup|]. split; [done|].
  intros Hnodup. rewrite <- size_dom, Hdom. by apply size_list_to_set.
Qed.

(** X2.  Two lists with the same names, in any order and with any
    repetitions, give the same index. *)
Theorem name_soundex_map_same_names `{Libraries} (names1 names2 : list string) :
  (list_to_set names1 : gset string) = list_to_set names2 →
  build_soundex_map names1 = build_soundex_map names2.
Proof.
  intros Hset. apply map_eq. intros name.
  rewrite !build_soundex_map_lookup.
  assert (name ∈ names1 ↔ name ∈ names2) as Hiff.
  { rewrite <- (elem_of_list_to_set (C:=gset string) name names1).
    rewrite <- (elem_of_list_to_set (C:=gset string) name names2).
    by rewrite Hset. }
  destruct (decide (name ∈ names1)) as [H1|H1];
    destruct (decide (name ∈ names2)) as [H2|H2]; tauto.
Qed.

Lemma name_soundex_map_same_names_witness :
  @build_soundex_map sample_libraries ["Geetha"; "Smith"; "Geetha"]%string
  = @build_soundex_map sample_libraries ["Smith"; "Geetha"]%string.
Proof.
  apply (name_soundex_map_same_names (H:=sample_libraries)).
  reflexivity.
Defined.

(** X3.  In a session the index is built from the list that is ranked
    (lines 35 and 115).  Then no lookup misses: every returned row is a
    name of the list, and its hybrid score is [min(100, base + 10)] when
    the Soundex codes of the name and of the query are equal, and
    [min(100, base)] when they differ. *)
Theorem session_hybrid_score `{Libraries} (names : list string)
    (query : string) (top_n : Z) (name : string) (hybrid base : Q) :
  (name, hybrid, base)
    ∈ (get_hybrid_matches_st query top_n (initial_store names)).1.2 →
  name ∈ names
  ∧ hybrid
    == Qmin 100
         (base + if decide (soundex name = soundex query) then 10 else 0).
Proof.
  rewrite get_hybrid_matches_st_run. simpl.
  intros (r & Hr & <- & <- & <-)%elem_of_frame.
  apply elem_of_ranked, elem_of_scored in Hr as [Hm ->].
  apply elem_of_survivors in Hm as (_ & Hin%list_elem_of_lookup_2 & _).
  split; [done|].
  rewrite bonus_score_Qmin, (session_phoneticMatch _ _ _ Hin).
  by case_decide.
Qed.

Lemma session_hybrid_score_witness :
  "Geetu"%string ∈ sample_names
  ∧ (500 # 10)
    == Qmin 100
         (40 + if decide (@soundex sample_libraries "Geetu"
                          = @soundex sample_libraries "Githa")
               then 10 else 0).
Proof.
  apply (session_hybrid_score (H:=sample_libraries) sample_names
           "Githa" 10 "Geetu").
  vm_compute. do 2 right. left.
Defined.

(** ** The call of [process.extract] (lines 46-51) *)

(** X4.  With [limit=len(name_list)] no name is cut off: the names of
    the tuples are the names of the list, each as often as it is listed.
    The tuples come by decreasing score, tuples of equal score by
    increasing index, and a tuple holds the name at its index and the
    score of that name against the query. *)
Theorem extract_covers_list `{Libraries} query name_list :
  let matches := extract query name_list (length name_list) in
  Matched_Name <$> matches ≡ₚ name_list
  ∧ descending WRatio_Score matches
  ∧ Forall (λ m, name_list !! Index m = Some (Matched_Name m)
                 ∧ WRatio_Score m = WRatio query (Matched_Name m)) matches
  ∧ ∀ a b, precedes matches a b → WRatio_Score a == WRatio_Score b →
           (Index a < Index b)%nat.
Proof.
  intros matches. unfold matches. split; [|split; [|split]].
  - rewrite extract_all, isort_desc_Permutation.
    by rewrite (fmap_imap_mkMatch (WRatio query) name_list 0).
  - rewrite extract_all. apply isort_desc_descending.
  - apply Forall_forall. intros m (i & name & Hi & ->)%elem_of_extract.
    by simpl.
  - rewrite extract_all. intros a b Hp Hscore.
    destruct (isort_desc_stable WRatio_Score _ a b Hp Hscore)
      as (i & j & Hij & Hi & Hj).
    apply list_lookup_imap_Some in Hi as (x & _ & ->).
    apply list_lookup_imap_Some in Hj as (y & _ & ->). done.
Qed.

(** ** The bonus (lines 64-74) *)

(** X5.  Whatever the scorer returns, the hybrid score of a row is at
    most 100, at most 10 above the base score, and at least
    [min(100, base)]: a base score up to 100 is never lowered, a larger
    one is cut to 100. *)
Theorem bonus_capped (query_soundex : string)
    (name_soundex_map : gmap string string) (row : Match) :
  let hybrid := calculate_bonus_score query_soundex name_soundex_map row in
  hybrid <= 100
  ∧ hybrid <= WRatio_Score row + 10
  ∧ Qmin 100 (WRatio_Score row) <= hybrid
  ∧ (100 <= WRatio_Score row → hybrid == 100).
Proof.
  intros hybrid. unfold hybrid.
  pose proof (bonus_score_le_plus query_soundex name_soundex_map row) as Hle.
  pose proof (bonus_score_ge_min query_soundex name_soundex_map row) as Hge.
  split; [|split; [|split]].
  - eapply Qle_trans; [exact Hle|]. apply Q.le_min_l.
  - eapply Qle_trans; [exact Hle|]. apply Q.le_min_r.
  - done.
  - intros Hbig. apply Qle_antisym.
    + eapply Qle_trans; [exact Hle|]. apply Q.le_min_l.
    + by rewrite Q.min_l in Hge.
Qed.

(** X6.  The bonus cannot make up a lead of 10 points: of two returned
    rows, one whose base score is at least 10 above the other's has a
    hybrid score at least as large, whatever the phonetic codes, and the
    other row stands before it only when their hybrid scores are equal. *)
Theorem bonus_cannot_overtake `{Libraries} query name_list phoneticIndex top_n
    (name1 name2 : string) (hybrid1 base1 hybrid2 base2 : Q) :
  (name1, hybrid1, base1)
    ∈ (get_hybrid_matches query name_list phoneticIndex top_n).2 →
  (name2, hybrid2, base2)
    ∈ (get_hybrid_matches query name_list phoneticIndex top_n).2 →
  base1 + 10 <= base2 →
  hybrid1 <= hybrid2
  ∧ (precedes (get_hybrid_matches query name_list phoneticIndex top_n).2
       (name1, hybrid1, base1) (name2, hybrid2, base2) →
     hybrid1 == hybrid2).
Proof.
  intros Hin1 Hin2 Hlead.
  pose proof Hin1 as (r1 & Hr1 & _ & Hh1 & Hb1)%elem_of_frame.
  pose proof Hin2 as (r2 & Hr2 & _ & Hh2 & Hb2)%elem_of_frame.
  apply elem_of_ranked, elem_of_scored in Hr1 as [_ He1].
  apply elem_of_ranked, elem_of_scored in Hr2 as [_ He2].
  pose proof (bonus_score_le_plus (soundex query) phoneticIndex (matched r1))
    as Hle.
  pose proof (bonus_score_ge_min (soundex query) phoneticIndex (matched r2))
    as Hge.
  rewrite <- He1, Hh1, Hb1 in Hle. rewrite <- He2, Hh2, Hb2 in Hge.
  assert (hybrid1 <= hybrid2) as Hhybrid.
  { eapply Qle_trans; [exact Hle|]. eapply Qle_trans; [|exact Hge].
    by apply Q.min_le_compat_l. }
  split; [done|]. intros Hp.
  pose proof (descending_precedes _ _ _ _
                (frame_descending query name_list phoneticIndex top_n) Hp)
    as Hdesc.
  simpl in Hdesc. by apply Qle_antisym.
Qed.

Lemma bonus_cannot_overtake_witness :
  (500 # 10) <= (600 # 10)
  ∧ (precedes
       (@get_hybrid_matches sample_libraries "Githa" sample_names
          sample_index 10).2
       ("Geetu"%string, 500 # 10, 40) ("Smith"%string, 600 # 10, 60) →
     (500 # 10) == (600 # 10)).
Proof.
  apply (bonus_cannot_overtake (H:=sample_libraries) "Githa" sample_names
           sample_index 10 "Geetu" "Smith").
  - vm_compute. do 2 right. left.
  - vm_compute. right. left.
  - by vm_compute.
Defined.

(** X7.  Among rows with the same phonetic signal (both codes equal the
    query's, or neither does) the hybrid scores follow the base scores:
    the larger base score has the hybrid score that is at least as
    large. *)
Theorem same_signal_keeps_base_order (query_soundex : string)
    (name_soundex_map : gmap string string) (row1 row2 : Match) :
  phoneticMatch query_soundex name_soundex_map (Matched_Name row1)
  = phoneticMatch query_soundex name_soundex_map (Matched_Name row2) →
  WRatio_Score row1 <= WRatio_Score row2 →
  calculate_bonus_score query_soundex name_soundex_map row1
  <= calculate_bonus_score query_soundex name_soundex_map row2.
Proof.
  intros Hsignal Hbase. rewrite !bonus_score_Qmin, Hsignal.
  by apply Q.min_le_compat_l, Qplus_le_l.
Qed.

Lemma same_signal_keeps_base_order_witness :
  calculate_bonus_score "G300" sample_index (mkMatch "Geetu" 40 1)
  <= calculate_bonus_score "G300" sample_index
       (mkMatch "Geetha" (800 # 11) 0).
Proof.
  apply same_signal_keeps_base_order.
  - by vm_compute.
  - by vm_compute.
Defined.

(** ** Ranking and truncation (line 79) *)

(** X8.  The best match is a scored survivor whose hybrid score no
    survivor exceeds, also not one that [head(top_n)] cut off. *)
Theorem best_match_is_maximum `{Libraries} query name_list phoneticIndex top_n
    (name : string) (hybrid : Q) :
  (get_hybrid_matches query name_list phoneticIndex top_n).1
  = Some (name, hybrid) →
  (∃ top, top ∈ scored query name_list phoneticIndex
          ∧ Matched_Name (matched top) = name ∧ Hybrid_Score top = hybrid)
  ∧ Forall (λ r, Hybrid_Score r <= hybrid)
      (scored query name_list phoneticIndex).
Proof.
  rewrite get_hybrid_matches_best. intros Hbest.
  pose proof (elem_of_ranked query name_list phoneticIndex top_n) as Hin.
  destruct (ranked_prefix query name_list phoneticIndex top_n)
    as [cut Hcut].
  pose proof (sort_values_descending
                (scored query name_list phoneticIndex)) as Hsorted.
  destruct (ranked query name_list phoneticIndex top_n) as [|top df];
    [done|].
  simpl in Hbest. injection Hbest as <- <-. split.
  - exists top. split; [|done]. apply Hin. by left.
  - rewrite Hcut in Hsorted. simpl in Hsorted.
    apply StronglySorted_inv in Hsorted as [_ Htop].
    apply Forall_forall. intros r Hr.
    rewrite <- (sort_values_Permutation _), Hcut in Hr. simpl in Hr.
    apply elem_of_cons in Hr as [->|Hr]; [apply Qle_refl|].
    by apply (proj1 (Forall_forall _ _) Htop).
Qed.

Lemma best_match_is_maximum_witness :
  (∃ top, top ∈ @scored sample_libraries "Githa" sample_names sample_index
          ∧ Matched_Name (matched top) = "Geetha"%string
          ∧ Hybrid_Score top = 9100 # 110)
  ∧ Forall (λ r, Hybrid_Score r <= 9100 # 110)
      (@scored sample_libraries "Githa" sample_names sample_index).
Proof.
  apply (best_match_is_maximum (H:=sample_libraries) "Githa" sample_names
           sample_index 1).
  by vm_compute.
Defined.

(** X9.  [head(top_n)] cuts from the low end: the returned frame and the
    rows cut off are together the scored survivors, and no row cut off
    has a larger hybrid score than a returned row. *)
Theorem returned_rows_dominate `{Libraries} query name_list phoneticIndex
    top_n :
  ∃ cut,
    (get_hybrid_matches query name_list phoneticIndex top_n).2 ++ cut
    ≡ₚ select_columns <$> scored query name_list phoneticIndex
    ∧ Forall (λ a, Forall (λ b, b.1.2 <= a.1.2) cut)
        (get_hybrid_matches query name_list phoneticIndex top_n).2.
Proof.
  destruct (ranked_prefix query name_list phoneticIndex top_n)
    as [cut Hcut].
  pose proof (sort_values_descending
                (scored query name_list phoneticIndex)) as Hsorted.
  rewrite Hcut in Hsorted.
  exists (select_columns <$> cut). rewrite get_hybrid_matches_frame. split.
  - by rewrite <- fmap_app, <- Hcut, sort_values_Permutation.
  - apply Forall_forall. intros a (ra & -> & Ha)%list_elem_of_fmap.
    apply Forall_forall. intros b (rb & -> & Hb)%list_elem_of_fmap.
    apply (StronglySorted_app_1_elem_of _ _ _ ra rb Hsorted Ha Hb).
Qed.

(** X10.  [top_n] only truncates: for [0 <= m <= n] the frame returned
    for [m] is the first [m] rows of the frame returned for [n], and from
    1 on the best match does not depend on [top_n]. *)
Theorem top_n_only_truncates `{Libraries} query name_list phoneticIndex
    (m n : Z) :
  (0 ≤ m ≤ n)%Z →
  (get_hybrid_matches query name_list phoneticIndex m).2
  = take (Z.to_nat m) (get_hybrid_matches query name_list phoneticIndex n).2
  ∧ ((1 ≤ m)%Z →
     (get_hybrid_matches query name_list phoneticIndex m).1
     = (get_hybrid_matches query name_list phoneticIndex n).1).
Proof.
  intros [Hm Hmn].
  assert (ranked query name_list phoneticIndex m
          = take (Z.to_nat m) (ranked query name_list phoneticIndex n))
    as Hranked.
  { unfold ranked. rewrite !df_head_nonneg by lia.
    rewrite take_take. f_equal. lia. }
  split.
  - by rewrite !get_hybrid_matches_frame, Hranked, fmap_take.
  - intros Hone. rewrite !get_hybrid_matches_best, Hranked.
    destruct (Z.to_nat m) as [|k] eqn:Hk; [lia|].
    by destruct (ranked query name_list phoneticIndex n).
Qed.

Lemma top_n_only_truncates_witness :
  (@get_hybrid_matches sample_libraries "Githa" sample_names sample_index 2).2
  = take (Z.to_nat 2)
      (@get_hybrid_matches sample_libraries "Githa" sample_names
         sample_index 10).2
  ∧ ((1 ≤ 2)%Z →
     (@get_hybrid_matches sample_libraries "Githa" sample_names
        sample_index 2).1
     = (@get_hybrid_matches sample_libraries "Githa" sample_names
          sample_index 10).1).
Proof.
  apply (top_n_only_truncates (H:=sample_libraries) "Githa" sample_names
           sample_index 2 10).
  lia.
Defined.

(** X11.  Outside [top_n >= 1]: with [top_n = 0] the result is
    [(None, [])] whatever the list, and with a negative [top_n] the frame
    is the sorted survivors without their last [-top_n] rows. *)
Theorem nonpositive_top_n `{Libraries} query name_list phoneticIndex :
  get_hybrid_matches query name_list phoneticIndex 0 = (None, [])
  ∧ ∀ k : nat,
      length (get_hybrid_matches query name_list phoneticIndex
                (- Z.of_nat (S k))).2
      = (length (survivors query name_list) - S k)%nat.
Proof.
  split; [done|]. intros k.
  rewrite length_frame. unfold ranked, df_head.
  rewrite (proj2 (Z.leb_gt 0 (- Z.of_nat (S k)))) by lia.
  rewrite length_take, sort_values_Permutation, length_scored.
  replace (Z.to_nat (- - Z.of_nat (S k))) with (S k) by lia. lia.
Qed.

(** ** Exclusion and deduplication (lines 57-58) *)

(** X12.  The returned names are names of the list that pass the
    comparison of line 57: lower-cased by [Series.str.lower] they differ
    from the query lower-cased by [str.lower].  When [top_n] is at least
    their number the returned names are exactly those names. *)
Theorem returned_names `{Libraries} query name_list phoneticIndex top_n :
  let eligible : gset string :=
    list_to_set
      (filter (λ name, Series_str_lower name ≠ lower query) name_list) in
  let returned : gset string :=
    list_to_set (get_hybrid_matches query name_list phoneticIndex top_n).2.*1.*1
  in
  returned ⊆ eligible
  ∧ ((Z.of_nat (size eligible) ≤ top_n)%Z → returned = eligible).
Proof.
  intros eligible returned.
  assert (∀ name, name ∈ eligible
                  ↔ name ∈ Matched_Name <$> survivors query name_list)
    as Heligible.
  { intros name. unfold eligible.
    rewrite elem_of_list_to_set, list_elem_of_filter. split.
    - intros [Hne Hin]. by apply survivors_complete.
    - intros (m & -> & Hm)%list_elem_of_fmap.
      apply elem_of_survivors in Hm as (Hne & Hin%list_elem_of_lookup_2 & _).
      done. }
  assert (∀ name, name ∈ returned
                  ↔ name ∈ (Matched_Name ∘ matched)
                             <$> ranked query name_list phoneticIndex top_n)
    as Hreturned.
  { intros name. unfold returned. by rewrite elem_of_list_to_set, frame_names. }
  split.
  - intros name. rewrite Hreturned, Heligible.
    intros (r & -> & Hr)%list_elem_of_fmap.
    apply elem_of_ranked, elem_of_scored in Hr as [Hm _].
    apply list_elem_of_fmap. by exists (matched r).
  - intros Hall. apply set_eq. intros name.
    rewrite Hreturned, Heligible.
    assert (ranked query name_list phoneticIndex top_n
            ≡ₚ scored query name_list phoneticIndex) as ->.
    { unfold ranked. rewrite df_head_nonneg by lia. rewrite take_ge.
      - apply sort_values_Permutation.
      - rewrite sort_values_Permutation, length_scored, length_survivors.
        fold eligible. lia. }
    by rewrite list_fmap_compose, matched_scored.
Qed.

(** X13.  The frame that goes into the hybrid sort is ordered by
    decreasing base score: exclusion and [drop_duplicates] keep the order
    of [process.extract]. *)
Theorem survivors_by_base_score `{Libraries} query name_list phoneticIndex :
  descending WRatio_Score (survivors query name_list)
  ∧ descending (WRatio_Score ∘ matched)
      (scored query name_list phoneticIndex).
Proof.
  assert (descending WRatio_Score (survivors query name_list)) as Hs.
  { eapply descending_sublist; [apply survivors_sublist|].
    rewrite extract_all. apply isort_desc_descending. }
  split; [done|].
  rewrite <- (matched_scored query name_list phoneticIndex) in Hs.
  unfold descending in *.
  induction (scored query name_list phoneticIndex) as [|r df IH];
    [constructor|].
  rewrite fmap_cons in Hs. apply StronglySorted_inv in Hs as [Hs Hr].
  constructor; [by apply IH|].
  apply Forall_forall. intros r' Hr'.
  apply (proj1 (Forall_forall _ _) Hr). apply list_elem_of_fmap.
  by exists r'.
Qed.

(** ** The dictionary lookups (line 66) *)

(** X14.  The function reads the index only at the names of the list: two
    indexes that agree on these names give the same result. *)
Theorem index_read_at_names `{Libraries} query name_list top_n
    (index1 index2 : gmap string string) :
  Forall (λ name, index1 !! name = index2 !! name) name_list →
  get_hybrid_matches query name_list index1 top_n
  = get_hybrid_matches query name_list index2 top_n.
Proof.
  intros Hagree. unfold get_hybrid_matches, ranked. do 3 f_equal.
  unfold scored. apply list_fmap_ext. intros i m Hm%list_elem_of_lookup_2.
  apply elem_of_survivors in Hm as (_ & Hin%list_elem_of_lookup_2 & _).
  unfold calculate_bonus_score.
  by rewrite (proj1 (Forall_forall _ _) Hagree _ Hin).
Qed.

Lemma index_read_at_names_witness :
  @get_hybrid_matches sample_libraries "Githa" ["Geetha"; "Smith"]%string
    stale_index 10
  = @get_hybrid_matches sample_libraries "Githa" ["Geetha"; "Smith"]%string
      sample_index 10.
Proof.
  apply (index_read_at_names (H:=sample_libraries)).
  repeat constructor.
Defined.

(** ** The button handler (lines 109-139) *)

Lemma ranked_nil `{Libraries} query name_list phoneticIndex top_n :
  (1 ≤ top_n)%Z →
  ranked query name_list phoneticIndex top_n = []
  ↔ Forall (λ name, Series_str_lower name = lower query) name_list.
Proof.
  intros Hn. rewrite <- survivors_nil, <- !length_zero_iff_nil.
  rewrite length_ranked by lia. lia.
Qed.

(** X15.  What the handler shows for a slider value (5 to 20).  The
    error: exactly for a query that [strip] empties.  The warning: exactly
    for a query that is not blank when no name of the list passes the
    comparison of line 57.  Otherwise the best match with a frame of at most
    [top_n_choice] rows whose first row is the best match.  The globals
    are left as they were. *)
Theorem find_matches_screens `{Libraries} (strip : string → string)
    (query_name : string) (top_n_choice : Z) (s : Store) :
  (5 ≤ top_n_choice ≤ 20)%Z →
  let (screen, s') := find_matches strip query_name top_n_choice s in
  s' = s
  ∧ match screen with
    | Enter_a_name => strip query_name = EmptyString
    | No_similar_names =>
        strip query_name ≠ EmptyString
        ∧ Forall (λ name, Series_str_lower name = lower query_name) (names s)
    | Best_match best ranked_df =>
        strip query_name ≠ EmptyString
        ∧ ¬ Forall (λ name, Series_str_lower name = lower query_name)
              (names s)
        ∧ (∃ base rest, ranked_df = (best.1, best.2, base) :: rest)
        ∧ (Z.of_nat (length ranked_df) ≤ top_n_choice)%Z
    end.
Proof.
  intros Hslider. unfold find_matches. case_decide as Hblank; [done|].
  unfold mbind, Prog_bind. rewrite get_hybrid_matches_st_run.
  rewrite get_hybrid_matches_best, get_hybrid_matches_frame.
  pose proof (ranked_nil query_name (names s) (name_soundex_map s)
                top_n_choice ltac:(lia)) as Hnil.
  pose proof (length_ranked query_name (names s) (name_soundex_map s)
                top_n_choice ltac:(lia)) as Hlen.
  destruct (ranked query_name (names s) (name_soundex_map s) top_n_choice)
    as [|top df]; simpl.
  - split; [done|]. split; [done|]. by apply Hnil.
  - split; [done|]. split; [done|]. split; [|split].
    + intros Hall. by apply Hnil in Hall.
    + by eexists _, _.
    + rewrite length_fmap. simpl in Hlen. lia.
Qed.

Lemma find_matches_screens_witness :
  let (screen, s') :=
    @find_matches sample_libraries strip_ascii "Githa" 5
      (@initial_store sample_libraries sample_names) in
  s' = @initial_store sample_libraries sample_names
  ∧ match screen with
    | Enter_a_name => strip_ascii "Githa" = EmptyString
    | No_similar_names =>
        strip_ascii "Githa" ≠ EmptyString
        ∧ Forall (λ name, @Series_str_lower sample_libraries name
                          = @lower sample_libraries "Githa")
            sample_names
    | Best_match best ranked_df =>
        strip_ascii "Githa" ≠ EmptyString
        ∧ ¬ Forall (λ name, @Series_str_lower sample_libraries name
                            = @lower sample_libraries "Githa")
              sample_names
        ∧ (∃ base rest, ranked_df = (best.1, best.2, base) :: rest)
        ∧ (Z.of_nat (length ranked_df) ≤ 5)%Z
    end.
Proof.
  apply (find_matches_screens (H:=sample_libraries) strip_ascii "Githa" 5
           (@initial_store sample_libraries sample_names)).
  lia.
Defined.

(** X16.  The warning needs a list of names that [Series.str.lower]
    makes one: when it lower-cases two names of the list differently, the
    handler shows no warning, whatever the query. *)
Theorem warning_needs_case_variants `{Libraries} (strip : string → string)
    (query_name : string) (top_n_choice : Z) (s : Store)
    (name1 name2 : string) :
  (5 ≤ top_n_choice ≤ 20)%Z →
  name1 ∈ names s → name2 ∈ names s →
  Series_str_lower name1 ≠ Series_str_lower name2 →
  (find_matches strip query_name top_n_choice s).1 ≠ No_similar_names.
Proof.
  intros Hslider Hin1 Hin2 Hne.
  unfold find_matches. case_decide as Hblank; [done|].
  unfold mbind, Prog_bind. rewrite get_hybrid_matches_st_run.
  rewrite get_hybrid_matches_best.
  pose proof (ranked_nil query_name (names s) (name_soundex_map s)
                top_n_choice ltac:(lia)) as Hnil.
  destruct (ranked query_name (names s) (name_soundex_map s) top_n_choice)
    as [|top df]; [|done].
  destruct Hnil as [Hall _]. specialize (Hall eq_refl).
  rewrite Forall_forall in Hall.
  destruct Hne. by rewrite (Hall _ Hin1), (Hall _ Hin2).
Qed.

Lemma warning_needs_case_variants_witness :
  (@find_matches sample_libraries strip_ascii "Githa" 10
     (@initial_store sample_libraries sample_names)).1
  ≠ No_similar_names.
Proof.
  apply (warning_needs_case_variants (H:=sample_libraries) strip_ascii
           "Githa" 10 (@initial_store sample_libraries sample_names)
           "Geetha" "Smith").
  - lia.
  - vm_compute. left.
  - vm_compute. do 2 right. left.
  - by vm_compute.
Defined.

(** A blank query, and a list that holds only the query. *)
Example blank_query_screen :
  (@find_matches sample_libraries strip_ascii "  " 10
     (@initial_store sample_libraries sample_names)).1
  = Enter_a_name.
Proof. by vm_compute. Qed.

Example only_the_query_screen :
  (@find_matches sample_libraries strip_ascii "Githa" 10
     (@initial_store sample_libraries ["githa"; "GITHA"]%string)).1
  = No_similar_names.
Proof. by vm_compute. Qed.
